(** * A shallow embedding of [utils.py] (generalised Sudoku solver)

    The Python module defines two classes, [SudokuGrid] (candidate sets,
    areas, subset table, reduction and validity) and [SudokuSolver]
    (board ingestion and the lookahead loop).  Both are embedded here as
    pure functions over an explicit grid value.

    Modelling conventions
    - Python [int] candidate values are [Z]; list lengths, [range] counters
      and flattened cell indices are [nat].
    - A candidate [set[int]] is a [gset Z].  The list [self.grid] holds
      references to set objects, and [reduce_options] changes these
      objects in place ([self.grid[j] -= test_set]).  Two levels are given.
      The value level ([SudokuGrid], [reduce_options], [simplify],
      [solve]) takes [self.grid] as the list of the cells' values, a
      [list (gset Z)], and an in-place change as the update of one cell:
      this is the code on a grid in which no two cells hold one set
      object, which is the case of every grid the program builds itself
      (the constructor, [set([val])], [good_set] and [.copy()] all create
      new sets).  The object level ([ObjGrid], [reduce_options_obj],
      [simplify_obj], [solve_obj]) keeps the references and a store of
      the objects, so that [set_values] called twice with one set makes
      two cells share it.  Lemmas [reduce_options_obj_view],
      [simplify_obj_view], [solve_obj_view] and
      [SudokuSolver_init_obj_view] show that the two levels agree as long
      as the cells hold objects of their own.
    - The dictionary [self.subsets] is only ever iterated, in insertion
      order; it is an association list.
    - A failed [assert] or an [IndexError] is [None].  The index errors
      that the program can reach are modelled: [set_values] and the copy
      loop of [solve()].  Reads [self.grid[i]] for [i] in an area go through
      [cell]; the areas of a constructed grid only hold indices of the grid
      (lemma [grid_of_area]), so these reads cannot fail.
    - A segment is a list of coordinate pairs [(x[0], x[1])] of Python
      ints; a board character is [None] for ['.'] and the integer it
      denotes otherwise. *)

From Stdlib Require Import Ascii.
From stdpp Require Import base list gmap sets sorting numbers.

Local Open Scope Z_scope.
Local Open Scope nat_scope.
#[local] Set Warnings "-clear-no-such-hyp".

(** ** The grid object *)

Record SudokuGrid := mkGrid {
  dimensions : nat * nat;
  values : list Z;
  grid : list (gset Z);
  areas : list (list nat);
  subsets : list (nat * gset Z)
}.

(** [self.dimensions[0]] *)
Definition side (g : SudokuGrid) : nat := fst (dimensions g).

Definition with_grid (g : SudokuGrid) (cells : list (gset Z)) : SudokuGrid :=
  mkGrid (dimensions g) (values g) cells (areas g) (subsets g).

(** *** [get_subset]: ['{:9b}'.format(i)] and the nine positions read from it *)

Fixpoint bin_digits (p : positive) : list ascii :=
  match p with
  | xH => ["1"%char]
  | xO q => bin_digits q ++ ["0"%char]
  | xI q => bin_digits q ++ ["1"%char]
  end.

(** Binary digits of [i], right-aligned with spaces to a width of at least 9. *)
Definition format_9b (i : nat) : list ascii :=
  let digits := match N.of_nat i with
                | N0 => ["0"%char]
                | Npos p => bin_digits p
                end in
  replicate (9 - length digits) " "%char ++ digits.

Definition get_subset (i : nat) : gset Z :=
  let bits := format_9b i in
  list_to_set
    ((λ k, Z.of_nat k + 1)%Z <$>
       filter (λ k, bits !! k = Some "1"%char) (seq 0 9)).

(** *** [__init__] *)

(** [range(a, b)] for naturals. *)
Definition range (a b : nat) : list nat := seq a (b - a).

Definition row_areas (total : nat) : list (list nat) :=
  (λ i, (λ j, total * i + j) <$> seq 0 total) <$> seq 0 total.

Definition col_areas (total : nat) : list (list nat) :=
  (λ j, (λ i, total * i + j) <$> seq 0 total) <$> seq 0 total.

(** The default blocks:
    [[total*m*i + n*j + total*r + s for r in range(m) for s in range(n)]
      for i in range(n) for j in range(m)]. *)
Definition block_areas (m n : nat) : list (list nat) :=
  let total := m * n in
  i ← seq 0 n; j ← seq 0 m;
  [ r ← seq 0 m; s ← seq 0 n; [total * m * i + n * j + total * r + s] ].

(** [[total * x[0] + x[1] for x in s] for s in segments]; coordinates are
    Python ints. *)
Definition segment_idx (total : nat) (segments : list (list (Z * Z))) : list (list Z) :=
  (λ s : list (Z * Z), (λ x : Z * Z, Z.of_nat total * x.1 + x.2)%Z <$> s) <$> segments.

Definition subset_table (total : nat) : list (nat * gset Z) :=
  (λ i, (i, get_subset i)) <$> range 1 (2 ^ total).

(** [SudokuGrid(m, n, segments)].  [None] or an empty list of segments
    selects the default blocks; the three [assert]s guard a supplied list. *)
Definition SudokuGrid_init (m n : nat) (segments : option (list (list (Z * Z))))
  : option SudokuGrid :=
  let total := m * n in
  let vals := (λ k, Z.of_nat k) <$> range 1 (total + 1) in
  let cells := replicate (total ^ 2) (list_to_set vals : gset Z) in
  let base := row_areas total ++ col_areas total in
  match segments with
  | Some (s0 :: ss) =>
      let segs := s0 :: ss in
      if decide (length segs = total) then
        if decide (Forall (λ s, length s = total) segs) then
          let idx := segment_idx total segs in
          if decide (merge_sort Z.le (mjoin idx)
                     = (λ k, Z.of_nat k) <$> range 0 (total ^ 2)) then
            Some (mkGrid (total, total) vals cells
                    (base ++ ((λ s : list Z, Z.to_nat <$> s) <$> idx))
                    (subset_table total))
          else None
        else None
      else None
  | _ =>
      Some (mkGrid (total, total) vals cells
              (base ++ block_areas m n) (subset_table total))
  end.

(** *** [defined], [is_valid], [set_values] *)

(** [len(self.grid[i]) == 1] *)
Definition defined (g : SudokuGrid) : list bool :=
  (λ x : gset Z, bool_decide (size x = 1)) <$> grid g.

(** [self.grid[i]] for an index that is in range. *)
Definition cell (cells : list (gset Z)) (i : nat) : gset Z := cells !!! i.

(** [list(s)[0]] *)
Definition first_of (s : gset Z) : Z := default 0%Z (head (elements s)).

Definition validate_area (g : SudokuGrid) (area : list nat) : bool :=
  let vals : gset Z := ⋃ ((λ i, cell (grid g) i) <$> area) in
  let exact_vals :=
    (λ i, first_of (cell (grid g) i))
      <$> filter (λ i, defined g !! i = Some true) area in
  bool_decide (vals = list_to_set (values g))
  && bool_decide (length exact_vals = size (list_to_set exact_vals : gset Z)).

Definition is_valid (g : SudokuGrid) : bool :=
  forallb (validate_area g) (areas g).

(** [l[i] = x], which raises [IndexError] out of range. *)
Definition list_assign {A} (l : list A) (i : nat) (x : A) : option (list A) :=
  if decide (i < length l) then Some (<[i := x]> l) else None.

Definition set_values (g : SudokuGrid) (row col : nat) (vals : gset Z)
  : option SudokuGrid :=
  with_grid g <$> list_assign (grid g) (row * side g + col) vals.

(** *** [reduce_options] *)

(** The body of the two nested loops for one area and one table entry. *)
Definition test_idx_of (area : list nat) (cells : list (gset Z))
    (test_set : gset Z) : list nat :=
  filter (λ i, ¬ (cell cells i ⊆ test_set)) area.

(** [for j in test_idx: self.grid[j] -= test_set], when no other cell
    holds the set of cell [j]; [remove_from_obj] is the general case. *)
Definition remove_from (test_set : gset Z) (cells : list (gset Z))
    (test_idx : list nat) : list (gset Z) :=
  foldl (λ cs j, <[j := cell cs j ∖ test_set]> cs) cells test_idx.

(** [len(test_idx) == self.dimensions[0] - len(test_set)], on Python ints. *)
Definition rule_applies (d : nat) (area : list nat) (cells : list (gset Z))
    (test_set : gset Z) : Prop :=
  (Z.of_nat (length (test_idx_of area cells test_set))
   = Z.of_nat d - Z.of_nat (size test_set))%Z.

#[global] Instance rule_applies_dec d area cells test_set :
  Decision (rule_applies d area cells test_set) := Z.eq_dec _ _.

Definition reduce_subset (d : nat) (area : list nat) (cells : list (gset Z))
    (test_set : gset Z) : list (gset Z) :=
  if decide (rule_applies d area cells test_set)
  then remove_from test_set cells (test_idx_of area cells test_set)
  else cells.

Definition reduce_area (d : nat) (table : list (nat * gset Z))
    (cells : list (gset Z)) (area : list nat) : list (gset Z) :=
  foldl (λ cs entry, reduce_subset d area cs entry.2) cells table.

Definition reduce_options (g : SudokuGrid) : SudokuGrid :=
  with_grid g (foldl (reduce_area (side g) (subsets g)) (grid g) (areas g)).

(** *** [simplify] *)

(** [sum([len(x) for x in self.grid])] *)
Definition options (g : SudokuGrid) : nat := sum_list (size <$> grid g).

(** The [while True] loop, entered with the grid [g] and the running total
    [opts]; the result carries the number of [reduce_options] passes made.
    [None] means the fuel ran out before the [break]. *)
Fixpoint simplify_loop (fuel : nat) (g : SudokuGrid) (opts : nat)
  : option (SudokuGrid * nat) :=
  match fuel with
  | 0 => None
  | S fuel' =>
      let g' := reduce_options g in
      let new_options := options g' in
      if decide (new_options = opts) then Some (g', 1)
      else prod_map id S <$> simplify_loop fuel' g' new_options
  end.

(** [simplify()]: the loop never needs more than [options g + 1] passes
    (lemma [simplify_loop_total]), so that much fuel gives its result. *)
Definition simplify (g : SudokuGrid) : SudokuGrid :=
  match simplify_loop (S (options g)) g (options g) with
  | Some (g', _) => g'
  | None => g
  end.

Definition simplify_passes (g : SudokuGrid) : nat :=
  match simplify_loop (S (options g)) g (options g) with
  | Some (_, k) => k
  | None => 0
  end.

(** ** The solver *)

(** A [for] loop whose body may raise: the first [None] ends the loop. *)
Fixpoint for_each {S A} (body : S → A → option S) (s : S) (l : list A) : option S :=
  match l with
  | [] => Some s
  | x :: l' => s' ← body s x; for_each body s' l'
  end.

(** [SudokuSolver(shape, board, segments)].  A board character is [None]
    for ['.'] and [Some (int c)] otherwise; the solver object holds nothing
    but its grid, which is what this returns. *)
Definition SudokuSolver_init (shape : nat * nat) (board : list (list (option Z)))
    (segments : option (list (list (Z * Z)))) : option SudokuGrid :=
  if decide (length board = shape.1 * shape.2) then
    if decide (Forall (λ b : list (option Z), length b = shape.1 * shape.2) board) then
      g ← SudokuGrid_init shape.1 shape.2 segments;
      for_each (λ g ij,
          match board !! ij.1 ≫= (.!! ij.2) with
          | Some (Some val) =>
              if decide (val ∈ values g) then set_values g ij.1 ij.2 {[val]} else None
          | Some None => Some g
          | None => None
          end)
        g (i ← seq 0 (side g); j ← seq 0 (side g); [(i, j)])
    else None
  else None.

(** The board character at [(i, j)], the body of the two nested loops of
    [SudokuSolver.__init__] for that pair, and the index it writes. *)
Definition board_entry (board : list (list (option Z))) (ij : nat * nat)
  : option (option Z) :=
  board !! ij.1 ≫= (.!! ij.2).

Definition place_entry (board : list (list (option Z))) (g : SudokuGrid)
    (ij : nat * nat) : option SudokuGrid :=
  match board !! ij.1 ≫= (.!! ij.2) with
  | Some (Some val) =>
      if decide (val ∈ values g) then set_values g ij.1 ij.2 {[val]} else None
  | Some None => Some g
  | None => None
  end.

Definition flat_of (g : SudokuGrid) (ij : nat * nat) : nat :=
  ij.1 * side g + ij.2.

(** [new_grid.grid[i] = self.grid.grid[i].copy()] for every live index. *)
Definition copy_cells (live fresh : list (gset Z)) : option (list (gset Z)) :=
  for_each (λ cs i, list_assign cs i (cell live i)) fresh (seq 0 (length live)).

(** The trial grid of lines 117-120, as it is when [simplify] is called
    on it: [SudokuGrid()] takes the default arguments [m = 3], [n = 3],
    [segments = None]. *)
Definition trial_grid (g : SudokuGrid) (idx : nat) (v : Z) : option SudokuGrid :=
  let row := idx / side g in
  let col := idx mod side g in
  new_grid ← SudokuGrid_init 3 3 None;
  cells ← copy_cells (grid g) (grid new_grid);
  set_values (with_grid new_grid cells) row col {[v]}.

(** [for v in self.grid.grid[idx]: ...; good_set |= {v}] *)
Definition good_values (g : SudokuGrid) (idx : nat) : option (gset Z) :=
  for_each (λ (good_set : gset Z) v,
      new_grid ← trial_grid g idx v;
      Some (if is_valid (simplify new_grid) then good_set ∪ {[v]} else good_set))
    ∅ (elements (cell (grid g) idx)).

(** The body of [for idx in range(len(self.grid.grid))]. *)
Definition solve_cell (g : SudokuGrid) (idx : nat) : option SudokuGrid :=
  if decide (defined g !! idx = Some false) then
    good_set ← good_values g idx;
    g' ← set_values g (idx / side g) (idx mod side g) good_set;
    Some (simplify g')
  else Some g.

Definition solve_cells (g : SudokuGrid) (idxs : list nat) : option SudokuGrid :=
  for_each solve_cell g idxs.

Inductive outcome :=
| Returned (g : SudokuGrid)
| Raised
| OutOfFuel.

(** [while not all(self.grid.defined): ...]; one unit of fuel per iteration. *)
Fixpoint solve_loop (fuel : nat) (g : SudokuGrid) : outcome :=
  if forallb id (defined g) then Returned g
  else match fuel with
       | 0 => OutOfFuel
       | S fuel' =>
           match solve_cells g (seq 0 (length (grid g))) with
           | None => Raised
           | Some g' => solve_loop fuel' g'
           end
       end.

Definition solve (fuel : nat) (g : SudokuGrid) : outcome :=
  solve_loop fuel (simplify g).

(** The run of [solve()] resumed in the middle of a [for] pass, with the
    indices [rest] still to visit. *)
Definition solve_resume (fuel : nat) (g : SudokuGrid) (rest : list nat) : outcome :=
  match solve_cells g rest with
  | None => Raised
  | Some g' => solve_loop fuel g'
  end.

(** ** Set objects and sharing *)

(** [self.grid] is a list of references to [set] objects, and
    [reduce_options] changes these objects in place.  At this level a grid
    object is its layout together with its list of references, and a store
    gives every set object its current value.  [set_values] stores the
    reference it is given, so two cells can hold one object. *)
Abbreviation Store := (gmap nat (gset Z)).

(** [frame] carries [dimensions], [values], [areas] and [subsets]; its
    [grid] field is not read.  [refs] is [self.grid]. *)
Record ObjGrid := mkObjGrid {
  frame : SudokuGrid;
  refs : list nat
}.

Definition deref (h : Store) (r : nat) : gset Z := default ∅ (h !! r).

(** The values of the cells, and the grid as the value level sees it. *)
Definition view (h : Store) (rs : list nat) : list (gset Z) := deref h <$> rs.

Definition snapshot (h : Store) (o : ObjGrid) : SudokuGrid :=
  with_grid (frame o) (view h (refs o)).

(** A new set object: [set(...)], [{...}], [s.copy()]. *)
Definition alloc (h : Store) (X : gset Z) : nat * Store :=
  let r := fresh (dom h : gset nat) in (r, <[r := X]> h).

(** [[set(self.values) for _ in range(total ** 2)]]: one new object per
    cell. *)
Fixpoint alloc_cells (h : Store) (X : gset Z) (k : nat) : list nat * Store :=
  match k with
  | 0 => ([], h)
  | S k' =>
      let '(r, h1) := alloc h X in
      let '(rs, h2) := alloc_cells h1 X k' in
      (r :: rs, h2)
  end.

(** [SudokuGrid(m, n, segments)]: the layout is that of the value level. *)
Definition SudokuGrid_init_obj (h : Store) (m n : nat)
    (segments : option (list (list (Z * Z)))) : option (ObjGrid * Store) :=
  g ← SudokuGrid_init m n segments;
  let '(rs, h') := alloc_cells h (list_to_set (values g)) (length (grid g)) in
  Some (mkObjGrid g rs, h').

(** [self.grid[row * self.dimensions[0] + col] = values]: the reference
    [r] of the caller's set is stored, not a copy. *)
Definition set_values_obj (o : ObjGrid) (row col : nat) (r : nat)
  : option ObjGrid :=
  mkObjGrid (frame o) <$> list_assign (refs o) (row * side (frame o) + col) r.

(** [for j in test_idx: self.grid[j] -= test_set]: the object that cell
    [j] holds is changed, for every cell that holds it. *)
Definition remove_from_obj (test_set : gset Z) (rs : list nat) (h : Store)
    (test_idx : list nat) : Store :=
  foldl (λ h j, match rs !! j with
                | Some r => <[r := deref h r ∖ test_set]> h
                | None => h
                end)
    h test_idx.

Definition reduce_subset_obj (d : nat) (area : list nat) (rs : list nat)
    (h : Store) (test_set : gset Z) : Store :=
  if decide (rule_applies d area (view h rs) test_set)
  then remove_from_obj test_set rs h (test_idx_of area (view h rs) test_set)
  else h.

Definition reduce_area_obj (d : nat) (table : list (nat * gset Z))
    (rs : list nat) (h : Store) (area : list nat) : Store :=
  foldl (λ h entry, reduce_subset_obj d area rs h entry.2) h table.

Definition reduce_options_obj (o : ObjGrid) (h : Store) : Store :=
  foldl (reduce_area_obj (side (frame o)) (subsets (frame o)) (refs o))
    h (areas (frame o)).

Fixpoint simplify_loop_obj (fuel : nat) (o : ObjGrid) (h : Store) (opts : nat)
  : option Store :=
  match fuel with
  | 0 => None
  | S fuel' =>
      let h' := reduce_options_obj o h in
      let new_options := options (snapshot h' o) in
      if decide (new_options = opts) then Some h'
      else simplify_loop_obj fuel' o h' new_options
  end.

(** [simplify()]; the fuel is enough whatever the sharing (lemma
    [simplify_loop_obj_total]). *)
Definition simplify_obj (o : ObjGrid) (h : Store) : Store :=
  default h (simplify_loop_obj (S (options (snapshot h o))) o h
               (options (snapshot h o))).

(** [SudokuSolver(shape, board, segments)]: every given value is stored as
    a new set [set([val])]. *)
Definition SudokuSolver_init_obj (h : Store) (shape : nat * nat)
    (board : list (list (option Z))) (segments : option (list (list (Z * Z))))
  : option (ObjGrid * Store) :=
  if decide (length board = shape.1 * shape.2) then
    if decide (Forall (λ b : list (option Z), length b = shape.1 * shape.2) board) then
      st ← SudokuGrid_init_obj h shape.1 shape.2 segments;
      for_each (λ (st : ObjGrid * Store) ij,
          match board !! ij.1 ≫= (.!! ij.2) with
          | Some (Some val) =>
              if decide (val ∈ values (frame st.1)) then
                let '(r, h') := alloc st.2 {[val]} in
                (λ o', (o', h')) <$> set_values_obj st.1 ij.1 ij.2 r
              else None
          | Some None => Some st
          | None => None
          end)
        st (i ← seq 0 (side (frame st.1)); j ← seq 0 (side (frame st.1)); [(i, j)])
    else None
  else None.

(** [new_grid.grid[i] = self.grid.grid[i].copy()]: a new object with the
    value of the live cell. *)
Definition copy_cells_obj (h : Store) (live fresh_refs : list nat)
  : option (list nat * Store) :=
  for_each (λ (st : list nat * Store) i,
      let '(r, h') := alloc st.2 (cell (view st.2 live) i) in
      (λ rs, (rs, h')) <$> list_assign st.1 i r)
    (fresh_refs, h) (seq 0 (length live)).

(** The trial grid of lines 117-120: all its objects are new. *)
Definition trial_grid_obj (h : Store) (o : ObjGrid) (idx : nat) (v : Z)
  : option (ObjGrid * Store) :=
  let row := idx / side (frame o) in
  let col := idx mod side (frame o) in
  new ← SudokuGrid_init_obj h 3 3 None;
  copied ← copy_cells_obj new.2 (refs o) (refs new.1);
  let '(r, h') := alloc copied.2 {[v]} in
  (λ t, (t, h')) <$> set_values_obj (mkObjGrid (frame new.1) copied.1) row col r.

(** The loop over the candidates of one cell.  The objects of a trial are
    out of reach once the trial is over: the next trial starts from the
    store [h] again.  [good_set] is an object of its own, given by its
    value until it is stored. *)
Definition good_values_obj (h : Store) (o : ObjGrid) (idx : nat)
  : option (gset Z) :=
  for_each (λ (good_set : gset Z) v,
      trial ← trial_grid_obj h o idx v;
      let h' := simplify_obj trial.1 trial.2 in
      Some (if is_valid (snapshot h' trial.1)
            then good_set ∪ {[v]} else good_set))
    ∅ (elements (cell (view h (refs o)) idx)).

Definition solve_cell_obj (st : ObjGrid * Store) (idx : nat)
  : option (ObjGrid * Store) :=
  if decide (defined (snapshot st.2 st.1) !! idx = Some false) then
    good_set ← good_values_obj st.2 st.1 idx;
    let '(r, h') := alloc st.2 good_set in
    o' ← set_values_obj st.1 (idx / side (frame st.1))
           (idx mod side (frame st.1)) r;
    Some (o', simplify_obj o' h')
  else Some st.

Inductive outcome_obj :=
| Returned_obj (o : ObjGrid) (h : Store)
| Raised_obj
| OutOfFuel_obj.

Fixpoint solve_loop_obj (fuel : nat) (o : ObjGrid) (h : Store) : outcome_obj :=
  if forallb id (defined (snapshot h o)) then Returned_obj o h
  else match fuel with
       | 0 => OutOfFuel_obj
       | S fuel' =>
           match for_each solve_cell_obj (o, h) (seq 0 (length (refs o))) with
           | None => Raised_obj
           | Some st => solve_loop_obj fuel' st.1 st.2
           end
       end.

Definition solve_obj (fuel : nat) (o : ObjGrid) (h : Store) : outcome_obj :=
  solve_loop_obj fuel o (simplify_obj o h).

(** What the value level sees of an outcome. *)
Definition outcome_view (r : outcome_obj) : outcome :=
  match r with
  | Returned_obj o h => Returned (snapshot h o)
  | Raised_obj => Raised
  | OutOfFuel_obj => OutOfFuel
  end.

(** No two cells hold one set object, and every cell holds an object of
    the store. *)
Definition unshared (h : Store) (rs : list nat) : Prop :=
  NoDup rs ∧ Forall (λ r, is_Some (h !! r)) rs.

#[global] Instance unshared_dec h rs : Decision (unshared h rs).
Proof. unfold unshared. apply _. Defined.

(** The relation between a state of the object level and the grid of the
    value level that it is, while no two cells share an object. *)
Definition is_grid (st : ObjGrid * Store) (g : SudokuGrid) : Prop :=
  snapshot st.2 st.1 = g ∧ unshared st.2 (refs st.1).

(** ** Vocabulary of the specification *)

(** [g] is a grid object made by [SudokuGrid(m, n, segments)] whose cells
    may since have been overwritten (by [set_values] or a reduction). *)
Definition grid_of (m n : nat) (segments : option (list (list (Z * Z))))
    (g : SudokuGrid) : Prop :=
  ∃ g0, SudokuGrid_init m n segments = Some g0
        ∧ g = with_grid g0 (grid g)
        ∧ length (grid g) = length (grid g0).

(** A family of index groups partitions [{0..N-1}]. *)
Definition partitions (N : nat) (family : list (list nat)) : Prop :=
  mjoin family ≡ₚ seq 0 N.

(** Every group has exactly [d] distinct indices. *)
Definition groups_of_size (d : nat) (family : list (list nat)) : Prop :=
  Forall (λ group, length group = d ∧ NoDup group) family.

(** One of the three area families of a grid of side [d]: [d] groups of [d]
    distinct indices each, which together partition [{0..d²-1}]. *)
Definition area_family (d : nat) (family : list (list nat)) : Prop :=
  length family = d ∧ groups_of_size d family ∧ partitions (d ^ 2) family.

(** Cells of [area] whose candidates are confined to [S]. *)
Definition confined (cells : list (gset Z)) (S : gset Z) (area : list nat) : list nat :=
  filter (λ i, cell cells i ⊆ S) area.

(** A complete assignment: one value per cell, taken from the cell's
    candidates, with every value of the grid exactly once in every area. *)
Definition complete_assignment (g : SudokuGrid) (f : nat → Z) : Prop :=
  Forall (λ i, f i ∈ cell (grid g) i) (seq 0 (length (grid g)))
  ∧ Forall (λ area,
        Forall (λ v, length (filter (λ i, f i = v) area) = 1) (values g))
      (areas g).

(** An area misses a value of the grid in all its cells. *)
Definition area_misses_value (g : SudokuGrid) (area : list nat) : Prop :=
  ∃ v, v ∈ values g ∧ ∀ i, i ∈ area → v ∉ cell (grid g) i.

(** An area has two resolved cells with the same value. *)
Definition area_repeats_value (g : SudokuGrid) (area : list nat) : Prop :=
  ∃ i j v, i ≠ j ∧ i ∈ area ∧ j ∈ area
           ∧ cell (grid g) i = {[v]} ∧ cell (grid g) j = {[v]}.

(** Invariant I2: candidates are drawn from the grid's values. *)
Definition candidates_in_range (g : SudokuGrid) : Prop :=
  Forall (λ x : gset Z, x ⊆ list_to_set (values g)) (grid g).



(** [n] calls of [reduce_options] in a row. *)
Definition reduce_times (n : nat) (g : SudokuGrid) : SudokuGrid :=
  Nat.iter n reduce_options g.

(** Cell by cell, [new] keeps only candidates of [old], and keeps at least
    one wherever [old] had one. *)
Definition narrows (new old : list (gset Z)) : Prop :=
  Forall2 (λ x y : gset Z, x ⊆ y ∧ (x = ∅ → y = ∅)) new old.

(** The assignment [f] picks a candidate in each of the first [N] cells. *)
Definition picks_from (N : nat) (cells : list (gset Z)) (f : nat → Z) : Prop :=
  ∀ i, i < N → f i ∈ cell cells i.

#[global] Instance complete_assignment_dec g f : Decision (complete_assignment g f).
Proof. unfold complete_assignment. apply _. Defined.

#[global] Instance candidates_in_range_dec g : Decision (candidates_in_range g).
Proof. unfold candidates_in_range. apply _. Defined.

(** The value set [{1..k}]. *)
Definition prefix_set (k : nat) : gset Z := list_to_set (Z.of_nat <$> seq 1 k).



(** ** Concrete inputs *)

Definition no_grid : SudokuGrid := mkGrid (0, 0) [] [] [] [].

(** [SudokuGrid(1, 1)] after [set_values(0, 0, set())]. *)
Definition grid_1x1_emptied : SudokuGrid :=
  default no_grid (g ← SudokuGrid_init 1 1 None; set_values g 0 0 ∅).

(** [SudokuGrid(1, 1)] after [set_values(0, 0, {1, 2})]. *)
Definition grid_1x1_overfull : SudokuGrid :=
  default no_grid (g ← SudokuGrid_init 1 1 None; set_values g 0 0 {[1%Z; 2%Z]}).

(** A Latin square that solves [SudokuGrid(5, 1)] with the cell (0,0) set
    to 5 (with [m = 5], [n = 1] the blocks are the columns). *)
Definition latin5 (i : nat) : Z :=
  (Z.of_nat ((i / 5 + i mod 5 + 4) mod 5) + 1)%Z.

(** [SudokuGrid()] after [set_values(0, 0, set())]. *)
Definition grid_9x9_emptied : SudokuGrid :=
  default no_grid (g ← SudokuGrid_init 3 3 None; set_values g 0 0 ∅).

(** The 4×4 boards of the scenarios: all blank, and blank but for a ['1']
    in the top-left corner. *)
Definition board_4x4_blank : list (list (option Z)) :=
  replicate 4 (replicate 4 None).

Definition board_4x4_one : list (list (option Z)) :=
  [Some 1%Z; None; None; None] :: replicate 3 (replicate 4 None).

(** A 9×9 blank board, and the rows of a grid given as its segments. *)
Definition board_9x9_blank : list (list (option Z)) :=
  replicate 9 (replicate 9 None).

Definition row_segments (d : nat) : list (list (Z * Z)) :=
  (λ i, (λ j, (Z.of_nat i, Z.of_nat j)) <$> seq 0 d) <$> seq 0 d.

(** [SudokuGrid(2, 2, segments)] with the four rows as segments. *)
Definition grid_2x2_rows : SudokuGrid :=
  default no_grid (SudokuGrid_init 2 2 (Some (row_segments 4))).

(** The live grid of [SudokuSolver((2, 2), board)] for the blank 4×4 board,
    and the grid on which [solve()] runs its first trial (cell 0, value 1). *)
Definition live_4x4 : SudokuGrid :=
  default no_grid (SudokuSolver_init (2, 2) board_4x4_blank None).

Definition first_trial_4x4 : SudokuGrid :=
  default no_grid (trial_grid live_4x4 0 1).

(** The same for the blank 9×9 board with the rows supplied as segments. *)
Definition live_9x9_rows : SudokuGrid :=
  default no_grid (SudokuSolver_init (3, 3) board_9x9_blank (Some (row_segments 9))).

Definition first_trial_9x9_rows : SudokuGrid :=
  default no_grid (trial_grid live_9x9_rows 0 1).

(** The grid of the 4×4 scenario: blank but for a ['1'] at (0,0). *)
Definition grid_4x4_one : SudokuGrid :=
  default no_grid (SudokuSolver_init (2, 2) board_4x4_one None).

(** A board given by its rows of digits, [0] standing for ['.']. *)
Definition board_of (rows : list (list Z)) : list (list (option Z)) :=
  (λ row : list Z,
     (λ v : Z, if decide (v = 0%Z) then None else Some v) <$> row) <$> rows.

(** The first board of the [__main__] block and the grid the program
    prints for it, read row by row. *)
Definition board_main_1 : list (list (option Z)) :=
  board_of
    [ [3; 4; 5; 0; 0; 0; 0; 0; 0];
      [0; 0; 6; 0; 0; 1; 0; 0; 0];
      [8; 0; 1; 0; 7; 0; 2; 0; 0];
      [0; 0; 3; 0; 0; 8; 0; 0; 0];
      [6; 0; 0; 0; 0; 0; 0; 5; 0];
      [0; 0; 4; 1; 9; 0; 6; 0; 0];
      [0; 0; 0; 6; 0; 5; 1; 0; 3];
      [0; 0; 0; 0; 0; 0; 7; 0; 0];
      [0; 0; 0; 0; 0; 4; 0; 0; 0] ]%Z.

Definition solution_main_1 (i : nat) : Z :=
  nth i
    [ 3; 4; 5; 9; 2; 6; 8; 1; 7;
      7; 2; 6; 8; 5; 1; 3; 9; 4;
      8; 9; 1; 4; 7; 3; 2; 6; 5;
      9; 1; 3; 5; 6; 8; 4; 7; 2;
      6; 8; 7; 3; 4; 2; 9; 5; 1;
      2; 5; 4; 1; 9; 7; 6; 3; 8;
      4; 7; 9; 6; 8; 5; 1; 2; 3;
      5; 3; 8; 2; 1; 9; 7; 4; 6;
      1; 6; 2; 7; 3; 4; 5; 8; 9 ]%Z 0%Z.

Definition grid_main_1 : SudokuGrid :=
  default no_grid (SudokuSolver_init (3, 3) board_main_1 None).

(** The second board of the [__main__] block, which [simplify()] alone
    does not resolve, and the grid the program prints for it. *)
Definition board_main_2 : list (list (option Z)) :=
  board_of
    [ [4; 0; 0; 0; 0; 0; 0; 1; 0];
      [0; 7; 0; 0; 0; 0; 0; 0; 0];
      [0; 0; 1; 0; 6; 0; 0; 3; 0];
      [2; 0; 6; 8; 0; 0; 1; 4; 0];
      [0; 3; 9; 4; 0; 0; 2; 0; 0];
      [0; 0; 0; 0; 7; 0; 0; 9; 3];
      [0; 0; 0; 0; 0; 8; 4; 2; 0];
      [3; 0; 0; 0; 0; 0; 0; 8; 9];
      [8; 0; 4; 0; 0; 2; 0; 0; 1] ]%Z.

Definition solution_main_2 (i : nat) : Z :=
  nth i
    [ 4; 8; 3; 5; 2; 9; 7; 1; 6;
      6; 7; 2; 3; 8; 1; 9; 5; 4;
      5; 9; 1; 7; 6; 4; 8; 3; 2;
      2; 5; 6; 8; 9; 3; 1; 4; 7;
      7; 3; 9; 4; 1; 5; 2; 6; 8;
      1; 4; 8; 2; 7; 6; 5; 9; 3;
      9; 1; 7; 6; 3; 8; 4; 2; 5;
      3; 2; 5; 1; 4; 7; 6; 8; 9;
      8; 6; 4; 9; 5; 2; 3; 7; 1 ]%Z 0%Z.

(** Two fully given 4×4 boards: a solved one, and one that repeats the
    value 1 in every cell. *)
Definition board_4x4_solved : list (list (option Z)) :=
  board_of [ [1; 2; 3; 4]; [3; 4; 1; 2]; [2; 1; 4; 3]; [4; 3; 2; 1] ]%Z.

Definition grid_4x4_solved : SudokuGrid :=
  default no_grid (SudokuSolver_init (2, 2) board_4x4_solved None).

Definition grid_4x4_ones : SudokuGrid :=
  default no_grid
    (SudokuSolver_init (2, 2) (replicate 4 (replicate 4 (Some 1%Z))) None).

(** The blank grids of [SudokuGrid(5, 2)] (side 10, 100 cells) and of
    [SudokuGrid(11, 1)] (side 11, 121 cells). *)
Definition grid_10x10_blank : SudokuGrid :=
  default no_grid (SudokuGrid_init 5 2 None).

Definition grid_11x11_blank : SudokuGrid :=
  default no_grid (SudokuGrid_init 11 1 None).

(** The same grids with their set objects.  [SudokuGrid(5, 1)] after
    [set_values(0, 0, {5})], a set of its own. *)
Definition no_objects : ObjGrid * Store := (mkObjGrid no_grid [], ∅).

Definition objects_5x1_five : ObjGrid * Store :=
  default no_objects
    (st ← SudokuGrid_init_obj ∅ 5 1 None;
     let '(r, h) := alloc st.2 {[5%Z]} in
     o ← set_values_obj st.1 0 0 r;
     Some (o, h)).

(** [g = SudokuGrid(); g.set_values(0, 0, {3}); s = {3, 4};
    g.set_values(0, 1, s); g.set_values(3, 2, s)]: cells 1 and 29 hold the
    one set [s]. *)
Definition objects_9x9_shared : ObjGrid * Store :=
  default no_objects
    (st ← SudokuGrid_init_obj ∅ 3 3 None;
     let '(r1, h1) := alloc st.2 {[3%Z]} in
     o1 ← set_values_obj st.1 0 0 r1;
     let '(r2, h2) := alloc h1 {[3%Z; 4%Z]} in
     o2 ← set_values_obj o1 0 1 r2;
     o3 ← set_values_obj o2 3 2 r2;
     Some (o3, h2)).

(** The solver's grids for the two boards of [__main__] and for the blank
    9×9 board, with their set objects. *)
Definition objects_main_1 : ObjGrid * Store :=
  default no_objects (SudokuSolver_init_obj ∅ (3, 3) board_main_1 None).

Definition objects_main_2 : ObjGrid * Store :=
  default no_objects (SudokuSolver_init_obj ∅ (3, 3) board_main_2 None).

Definition objects_9x9_blank : ObjGrid * Store :=
  default no_objects (SudokuSolver_init_obj ∅ (3, 3) board_9x9_blank None).

(** * Properties *)

(** Closed decidable facts are settled by evaluation. *)
Ltac by_evaluation := apply (bool_decide_unpack _); vm_compute; exact I.

(** A closed equation whose sides evaluate to the same value. *)
Ltac by_evaluating_sides :=
  lazymatch goal with |- _ = ?rhs => vm_cast_no_check (@eq_refl _ rhs) end.

(** ** Cells of a list of candidate sets *)

Lemma cell_ge cs i : length cs ≤ i → cell cs i = ∅.
Proof.
  intros Hi. unfold cell. rewrite list_lookup_total_alt.
  by rewrite lookup_ge_None_2.
Qed.

Lemma cell_lookup cs i x : cs !! i = Some x → cell cs i = x.
Proof. apply list_lookup_total_correct. Qed.

Lemma lookup_cell cs i : i < length cs → cs !! i = Some (cell cs i).
Proof. apply list_lookup_lookup_total_lt. Qed.

Lemma cell_insert cs j i X :
  cell (<[j := X]> cs) i = if decide (j = i ∧ j < length cs) then X else cell cs i.
Proof.
  unfold cell. case_decide as H.
  - destruct H as [-> H]. by rewrite list_lookup_total_insert_eq.
  - destruct (decide (j = i)) as [->|Hne].
    + rewrite list_insert_ge; [done|lia].
    + by rewrite list_lookup_total_insert_ne.
Qed.

Lemma cells_ext (cs cs' : list (gset Z)) :
  length cs = length cs' → (∀ i, cell cs i = cell cs' i) → cs = cs'.
Proof.
  intros Hlen Hcell. apply list_eq_same_length with (length cs); [done..|].
  intros i x y _ Hx Hy.
  apply cell_lookup in Hx, Hy. specialize (Hcell i). congruence.
Qed.

(** ** One application of the elimination rule *)

Lemma remove_from_length S cs l : length (remove_from S cs l) = length cs.
Proof.
  unfold remove_from. revert cs. induction l as [|j l IH]; intros cs; simpl; [done|].
  by rewrite IH, length_insert.
Qed.

Lemma remove_from_cell S l cs i :
  cell (remove_from S cs l) i = if decide (i ∈ l) then cell cs i ∖ S else cell cs i.
Proof.
  unfold remove_from. revert cs. induction l as [|j l IH]; intros cs; cbn [foldl].
  - rewrite decide_False; [done|apply not_elem_of_nil].
  - rewrite IH, cell_insert.
    destruct (decide (i ∈ l)) as [Hl|Hl];
      destruct (decide (j = i ∧ j < length cs)) as [[-> Hj]|Hj];
      rewrite ?decide_True by set_solver; try set_solver.
    destruct (decide (j = i)) as [->|Hne].
    + rewrite decide_True by set_solver.
      rewrite cell_ge by lia. set_solver.
    + rewrite decide_False by set_solver. done.
Qed.

Lemma test_idx_of_elem area cs S i :
  i ∈ test_idx_of area cs S ↔ i ∈ area ∧ ¬ cell cs i ⊆ S.
Proof. unfold test_idx_of. rewrite list_elem_of_filter. tauto. Qed.

Lemma reduce_subset_length d area cs S :
  length (reduce_subset d area cs S) = length cs.
Proof. unfold reduce_subset. case_decide; [apply remove_from_length|done]. Qed.

(** What one [(area, test_set)] step does to every cell. *)
Lemma reduce_subset_cell d area cs S i :
  cell (reduce_subset d area cs S) i
  = if decide (rule_applies d area cs S ∧ i ∈ area ∧ ¬ cell cs i ⊆ S)
    then cell cs i ∖ S else cell cs i.
Proof.
  unfold reduce_subset. case_decide as Happ.
  - rewrite remove_from_cell.
    destruct (decide (i ∈ test_idx_of area cs S)) as [Hi|Hi];
      rewrite test_idx_of_elem in Hi.
    + rewrite decide_True; [done|tauto].
    + rewrite decide_False; [done|tauto].
  - rewrite decide_False; [done|tauto].
Qed.

(** ** Narrowing *)

Lemma narrows_refl cs : narrows cs cs.
Proof. apply Forall_Forall2_diag, list.Forall_forall. done. Qed.

Lemma narrows_trans cs1 cs2 cs3 : narrows cs1 cs2 → narrows cs2 cs3 → narrows cs1 cs3.
Proof.
  unfold narrows. intros H12 H23.
  eapply Forall2_trans; [|exact H12|exact H23].
  simpl. intros x y z [Hxy Hey] [Hyz Hez]. split; [set_solver|tauto].
Qed.

Lemma narrows_length new old : narrows new old → length new = length old.
Proof. apply Forall2_length. Qed.

Lemma narrows_cell new old i :
  narrows new old → cell new i ⊆ cell old i ∧ (cell new i = ∅ → cell old i = ∅).
Proof.
  intros H. destruct (decide (i < length new)) as [Hi|Hi].
  - assert (i < length old) by (by rewrite <-(narrows_length new old)).
    eapply Forall2_lookup_lr in H; [exact H|by apply lookup_cell..].
  - rewrite (cell_ge new), (cell_ge old);
      [done|rewrite <-(narrows_length new old) by done; lia|lia].
Qed.

Lemma narrows_intro new old :
  length new = length old →
  (∀ i, cell new i ⊆ cell old i ∧ (cell new i = ∅ → cell old i = ∅)) →
  narrows new old.
Proof.
  intros Hlen Hc. apply Forall2_same_length_lookup_2; [done|].
  intros i x y Hx Hy. apply cell_lookup in Hx, Hy. subst. apply Hc.
Qed.

Lemma reduce_subset_narrows d area cs S : narrows (reduce_subset d area cs S) cs.
Proof.
  apply narrows_intro; [apply reduce_subset_length|].
  intros i. rewrite reduce_subset_cell. case_decide as H; [|done].
  destruct H as (_ & _ & Hnot). split; [set_solver|].
  intros Hempty. exfalso. apply Hnot. set_solver.
Qed.

Lemma reduce_area_narrows d table cs area : narrows (reduce_area d table cs area) cs.
Proof.
  unfold reduce_area. revert cs.
  induction table as [|e table IH]; intros cs; simpl; [apply narrows_refl|].
  eapply narrows_trans; [apply IH|apply reduce_subset_narrows].
Qed.

Lemma reduce_areas_narrows d table cs family :
  narrows (foldl (reduce_area d table) cs family) cs.
Proof.
  revert cs. induction family as [|a family IH]; intros cs; simpl; [apply narrows_refl|].
  eapply narrows_trans; [apply IH|apply reduce_area_narrows].
Qed.

Lemma reduce_options_narrows g : narrows (grid (reduce_options g)) (grid g).
Proof. apply reduce_areas_narrows. Qed.

Lemma narrows_sum new old :
  narrows new old → sum_list (size <$> new) ≤ sum_list (size <$> old).
Proof.
  induction 1 as [|x y new old [Hxy _] _ IH]; csimpl; [done|].
  apply subseteq_size in Hxy. lia.
Qed.

Lemma narrows_sum_eq new old :
  narrows new old → sum_list (size <$> new) = sum_list (size <$> old) → new = old.
Proof.
  induction 1 as [|x y new old [Hxy _] Hrest IH]; csimpl; [done|].
  intros Hsum. pose proof (narrows_sum _ _ Hrest) as Hle.
  pose proof (subseteq_size _ _ Hxy) as Hsz.
  f_equal; [apply set_subseteq_size_eq; [done|lia]|apply IH; lia].
Qed.

Lemma narrows_sum_pos new old :
  narrows new old → 0 < sum_list (size <$> old) → 0 < sum_list (size <$> new).
Proof.
  induction 1 as [|x y new old [_ Hxy] _ IH]; csimpl; [lia|].
  intros Hpos. destruct (decide (size y = 0)) as [Hy|Hy].
  - assert (0 < sum_list (size <$> new)) by (apply IH; lia). lia.
  - assert (size x ≠ 0); [|lia].
    intros Hx. apply size_empty_inv in Hx. apply leibniz_equiv in Hx.
    apply Hxy in Hx. subst y. by rewrite size_empty in Hy.
Qed.

Lemma reduce_options_fixpoint g :
  options (reduce_options g) = options g → reduce_options g = g.
Proof.
  intros Hsum. apply narrows_sum_eq in Hsum; [|apply reduce_options_narrows].
  destruct g. unfold reduce_options, with_grid in *. simpl in *. by rewrite Hsum.
Qed.

(** ** The fixpoint driver *)

Lemma options_reduce_le g : options (reduce_options g) ≤ options g.
Proof. apply narrows_sum, reduce_options_narrows. Qed.

Lemma options_reduce_pos g : 0 < options g → 0 < options (reduce_options g).
Proof. apply narrows_sum_pos, reduce_options_narrows. Qed.

Lemma simplify_loop_more_fuel fuel fuel' g opts r :
  simplify_loop fuel g opts = Some r → fuel ≤ fuel' →
  simplify_loop fuel' g opts = Some r.
Proof.
  revert fuel' g opts r.
  induction fuel as [|fuel IH]; intros fuel' g opts r Hrun Hle; [done|].
  destruct fuel' as [|fuel']; [lia|]. simpl in *.
  case_decide; [done|].
  destruct (simplify_loop fuel _ _) as [r'|] eqn:Hr'; [|done].
  by erewrite IH; [|done|lia].
Qed.

(** With more fuel than candidates the loop reaches its [break]: the grid
    it leaves is a fixpoint of [reduce_options], and the passes are counted. *)
Lemma simplify_loop_total fuel g :
  options g < fuel →
  ∃ g' k, simplify_loop fuel g (options g) = Some (g', k)
          ∧ 1 ≤ k ≤ max 1 (options g)
          ∧ reduce_options g' = g'
          ∧ narrows (grid g') (grid g)
          ∧ g' = with_grid g (grid g').
Proof.
  revert g. induction fuel as [|fuel IH]; intros g Hfuel; [lia|].
  simpl. case_decide as Heq.
  - exists (reduce_options g), 1. split_and!; [done|lia|lia| |apply reduce_options_narrows|done].
    apply reduce_options_fixpoint in Heq. by rewrite !Heq.
  - pose proof (options_reduce_le g) as Hle.
    pose proof (options_reduce_pos g) as Hpos.
    destruct (IH (reduce_options g)) as (g' & k & Hrun & Hk & Hfix & Hnar & Hlay); [lia|].
    exists g', (S k). rewrite Hrun. split_and!; [done|lia|lia|done| |].
    + eapply narrows_trans; [exact Hnar|apply reduce_options_narrows].
    + rewrite Hlay at 1. done.
Qed.

Lemma simplify_fixpoint g : reduce_options (simplify g) = simplify g.
Proof.
  destruct (simplify_loop_total (S (options g)) g) as (g' & k & Hrun & _ & Hfix & _); [lia|].
  unfold simplify. by rewrite Hrun.
Qed.

Lemma simplify_narrows g : narrows (grid (simplify g)) (grid g).
Proof.
  destruct (simplify_loop_total (S (options g)) g) as (g' & k & Hrun & _ & _ & Hnar & _); [lia|].
  unfold simplify. by rewrite Hrun.
Qed.

Lemma simplify_layout g : simplify g = with_grid g (grid (simplify g)).
Proof.
  destruct (simplify_loop_total (S (options g)) g) as (g' & k & Hrun & _ & _ & _ & Hlay); [lia|].
  unfold simplify. by rewrite Hrun.
Qed.

Lemma simplify_of_fixpoint g : reduce_options g = g → simplify g = g.
Proof.
  intros Hfix. unfold simplify. simpl. rewrite Hfix. by rewrite decide_True.
Qed.

Lemma reduce_times_options_le n g :
  options (reduce_times (S n) g) ≤ options (reduce_times n g).
Proof. unfold reduce_times. simpl. apply options_reduce_le. Qed.

(** ** The areas built by the constructor *)

Lemma length_join_const {A} d (ls : list (list A)) :
  Forall (λ l, length l = d) ls → length (mjoin ls) = length ls * d.
Proof.
  induction 1 as [|l ls Hl _ IH]; [done|].
  change (mjoin (l :: ls)) with (l ++ mjoin ls).
  rewrite length_app, IH, Hl. simpl. lia.
Qed.

Lemma length_bind_const {A B} d (f : A → list B) (l : list A) :
  (∀ x, length (f x) = d) → length (l ≫= f) = length l * d.
Proof.
  intros Hf. induction l as [|x l IH]; [done|].
  rewrite bind_cons, length_app, Hf. simpl. lia.
Qed.

Lemma fmap_join {A B} (f : A → B) (ls : list (list A)) :
  mjoin (fmap f <$> ls) = f <$> mjoin ls.
Proof.
  induction ls as [|l ls IH]; [done|].
  rewrite fmap_cons. change (mjoin (l :: ls)) with (l ++ mjoin ls).
  change (mjoin ((f <$> l) :: (fmap f <$> ls)))
    with ((f <$> l) ++ mjoin (fmap f <$> ls)).
  by rewrite fmap_app, <-IH.
Qed.

Lemma NoDup_join_elem {A} (ls : list (list A)) l :
  NoDup (mjoin ls) → l ∈ ls → NoDup l.
Proof.
  induction ls as [|l' ls IH]; intros Hnd Hl; [by apply elem_of_nil in Hl|].
  change (mjoin (l' :: ls)) with (l' ++ mjoin ls) in Hnd.
  apply list.NoDup_app in Hnd as (Hl' & _ & Hls).
  apply elem_of_cons in Hl as [->|Hl]; [done|by apply IH].
Qed.

(** Groups of the right size that cover every index form a family. *)
Lemma area_family_intro d family :
  length family = d →
  Forall (λ group, length group = d) family →
  (∀ k, k < d ^ 2 → ∃ group, k ∈ group ∧ group ∈ family) →
  area_family d family.
Proof.
  intros Hlen Hsize Hcover.
  assert (mjoin family ≡ₚ seq 0 (d ^ 2)) as Hperm.
  { symmetry. apply submseteq_length_Permutation.
    - apply NoDup_submseteq; [apply NoDup_seq|].
      intros k Hk. apply elem_of_seq in Hk.
      apply list_elem_of_join. apply Hcover. lia.
    - rewrite (length_join_const d), length_seq, Hlen by done.
      rewrite Nat.pow_2_r. lia. }
  split_and!; [done| |done].
  apply list.Forall_forall. intros group Hgroup. split.
  - by eapply list.Forall_forall in Hsize.
  - apply (NoDup_join_elem family); [|done]. rewrite Hperm. apply NoDup_seq.
Qed.

Lemma row_areas_family total : area_family total (row_areas total).
Proof.
  unfold row_areas. apply area_family_intro.
  - by rewrite length_fmap, length_seq.
  - apply Forall_fmap, list.Forall_forall. intros i _. simpl.
    by rewrite length_fmap, length_seq.
  - intros k Hk. rewrite Nat.pow_2_r in Hk.
    assert (total ≠ 0) by (intros ->; lia).
    exists ((λ j, total * (k / total) + j) <$> seq 0 total). split.
    + apply list_elem_of_fmap. exists (k mod total). split.
      * apply Nat.div_mod_eq.
      * apply elem_of_seq. split; [lia|]. simpl. by apply Nat.mod_upper_bound.
    + apply list_elem_of_fmap. exists (k / total). split; [done|].
      apply elem_of_seq. split; [lia|]. simpl.
      apply Nat.Div0.div_lt_upper_bound. lia.
Qed.

Lemma col_areas_family total : area_family total (col_areas total).
Proof.
  unfold col_areas. apply area_family_intro.
  - by rewrite length_fmap, length_seq.
  - apply Forall_fmap, list.Forall_forall. intros i _. simpl.
    by rewrite length_fmap, length_seq.
  - intros k Hk. rewrite Nat.pow_2_r in Hk.
    assert (total ≠ 0) by (intros ->; lia).
    exists ((λ i, total * i + k mod total) <$> seq 0 total). split.
    + apply list_elem_of_fmap. exists (k / total). split.
      * apply Nat.div_mod_eq.
      * apply elem_of_seq. split; [lia|]. simpl.
        apply Nat.Div0.div_lt_upper_bound. lia.
    + apply list_elem_of_fmap. exists (k mod total). split; [done|].
      apply elem_of_seq. split; [lia|]. simpl. by apply Nat.mod_upper_bound.
Qed.

Lemma block_areas_family m n : area_family (m * n) (block_areas m n).
Proof.
  unfold block_areas. apply area_family_intro.
  - rewrite (length_bind_const m), length_seq; [lia|].
    intros i. rewrite (length_bind_const 1), length_seq; [lia|done].
  - apply Forall_bind, list.Forall_forall. intros i _.
    apply Forall_bind, list.Forall_forall. intros j _.
    apply Forall_singleton.
    rewrite (length_bind_const n), length_seq; [done|].
    intros r. rewrite (length_bind_const 1), length_seq; [lia|done].
  - intros k Hk. rewrite Nat.pow_2_r in Hk.
    assert (m ≠ 0 ∧ n ≠ 0) as [Hm Hn] by (split; intros ->; lia).
    set (total := m * n) in *.
    set (row := k / total). set (col := k mod total).
    assert (total ≠ 0) by (unfold total; lia).
    assert (row < total).
    { apply Nat.Div0.div_lt_upper_bound. lia. }
    assert (col < total) by (by apply Nat.mod_upper_bound).
    assert (k = total * row + col) as Hkrc by apply Nat.div_mod_eq.
    assert (row = m * (row / m) + row mod m) as Hrow by apply Nat.div_mod_eq.
    assert (col = n * (col / n) + col mod n) as Hcol by apply Nat.div_mod_eq.
    assert (row mod m < m) by (by apply Nat.mod_upper_bound).
    assert (col mod n < n) by (by apply Nat.mod_upper_bound).
    assert (row / m < n).
    { apply Nat.Div0.div_lt_upper_bound. unfold total in *. lia. }
    assert (col / n < m).
    { apply Nat.Div0.div_lt_upper_bound. unfold total in *. lia. }
    eexists. split; cycle 1.
    + apply list_elem_of_bind. exists (row / m). split; [|apply elem_of_seq; lia].
      apply list_elem_of_bind. exists (col / n). split; [|apply elem_of_seq; lia].
      apply list_elem_of_singleton. reflexivity.
    + apply list_elem_of_bind. exists (row mod m). split; [|apply elem_of_seq; lia].
      apply list_elem_of_bind. exists (col mod n). split; [|apply elem_of_seq; lia].
      apply list_elem_of_singleton.
      rewrite Hkrc at 1. rewrite Hrow at 1. rewrite Hcol at 1. lia.
Qed.

Lemma segment_areas_family total (segs : list (list (Z * Z))) :
  length segs = total →
  Forall (λ s, length s = total) segs →
  merge_sort Z.le (mjoin (segment_idx total segs))
    = (λ k, Z.of_nat k) <$> range 0 (total ^ 2) →
  area_family total ((λ s : list Z, Z.to_nat <$> s) <$> segment_idx total segs).
Proof.
  intros Hlen Hsize Hsort. unfold range in Hsort. rewrite Nat.sub_0_r in Hsort.
  assert (mjoin ((λ s : list Z, Z.to_nat <$> s) <$> segment_idx total segs)
          ≡ₚ seq 0 (total ^ 2)) as Hperm.
  { rewrite (fmap_join Z.to_nat).
    rewrite <-(merge_sort_Permutation Z.le (mjoin _)), Hsort.
    generalize (seq 0 (total ^ 2)). intros l.
    induction l as [|x l IH]; [done|].
    by rewrite !fmap_cons, IH, Nat2Z.id. }
  split_and!.
  - unfold segment_idx. by rewrite !length_fmap.
  - apply list.Forall_forall. intros group Hgroup. split.
    + unfold segment_idx in Hgroup.
      apply list_elem_of_fmap in Hgroup as (zs & -> & Hzs).
      apply list_elem_of_fmap in Hzs as (s & -> & Hs).
      rewrite !length_fmap. by eapply list.Forall_forall in Hsize.
    + eapply NoDup_join_elem; [|exact Hgroup]. rewrite Hperm. apply NoDup_seq.
  - done.
Qed.

(** The areas of a constructed grid, family by family. *)
Lemma SudokuGrid_init_areas m n segments g :
  SudokuGrid_init m n segments = Some g →
  ∃ regions,
    areas g = row_areas (m * n) ++ col_areas (m * n) ++ regions
    ∧ area_family (m * n) regions
    ∧ dimensions g = (m * n, m * n)
    ∧ values g = (λ k, Z.of_nat k) <$> range 1 (m * n + 1)
    ∧ subsets g = subset_table (m * n)
    ∧ length (grid g) = (m * n) ^ 2.
Proof.
  unfold SudokuGrid_init. intros Hinit.
  destruct segments as [[|s0 ss]|].
  - injection Hinit as <-. exists (block_areas m n). cbn [areas dimensions values subsets grid].
    rewrite <-app_assoc, length_replicate.
    split_and!; try done. apply block_areas_family.
  - repeat case_decide; try done. injection Hinit as <-.
    exists ((λ s : list Z, Z.to_nat <$> s) <$> segment_idx (m * n) (s0 :: ss)).
    cbn [areas dimensions values subsets grid].
    rewrite <-app_assoc, length_replicate.
    split_and!; try done. by apply segment_areas_family.
  - injection Hinit as <-. exists (block_areas m n). cbn [areas dimensions values subsets grid].
    rewrite <-app_assoc, length_replicate.
    split_and!; try done. apply block_areas_family.
Qed.

Lemma area_family_elem d family area :
  area_family d family → area ∈ family →
  length area = d ∧ NoDup area ∧ ∀ i, i ∈ area → i < d ^ 2.
Proof.
  intros (_ & Hgroups & Hpart) Harea.
  unfold groups_of_size in Hgroups. rewrite list.Forall_forall in Hgroups.
  destruct (Hgroups _ Harea) as [Hlen Hnd]. split_and!; [done..|].
  intros i Hi. assert (i ∈ seq 0 (d ^ 2)) as Hseq.
  { unfold partitions in Hpart. rewrite <-Hpart.
    apply list_elem_of_join. by exists area. }
  apply elem_of_seq in Hseq. lia.
Qed.


(** What every grid object of the program satisfies. *)
Lemma grid_of_layout m n segments g :
  grid_of m n segments g →
  side g = m * n
  ∧ length (grid g) = (m * n) ^ 2
  ∧ values g = (λ k, Z.of_nat k) <$> range 1 (m * n + 1)
  ∧ subsets g = subset_table (m * n)
  ∧ ∃ regions, areas g = row_areas (m * n) ++ col_areas (m * n) ++ regions
               ∧ area_family (m * n) regions.
Proof.
  intros (g0 & Hinit & Hg & Hlen).
  apply SudokuGrid_init_areas in Hinit
    as (regions & Hareas & Hfam & Hdim & Hvals & Htab & Hcells).
  rewrite Hg. unfold side. cbn [with_grid dimensions values subsets areas grid].
  rewrite Hdim, Hlen, Hcells, Hvals, Htab. split_and!; try done.
  by exists regions.
Qed.

Lemma grid_of_area m n segments g area :
  grid_of m n segments g → area ∈ areas g →
  length area = side g ∧ NoDup area ∧ ∀ i, i ∈ area → i < length (grid g).
Proof.
  intros Hg Harea.
  destruct (grid_of_layout _ _ _ _ Hg) as (-> & -> & _ & _ & regions & Hareas & Hfam).
  rewrite Hareas in Harea.
  apply elem_of_app in Harea as [Harea|Harea]; [|apply elem_of_app in Harea as [Harea|Harea]].
  - eapply area_family_elem; [apply row_areas_family|done].
  - eapply area_family_elem; [apply col_areas_family|done].
  - eapply area_family_elem; done.
Qed.


(** ** Soundness of the elimination *)

Lemma length_filter_complement {A} (P : A → Prop) `{∀ x, Decision (P x)} (l : list A) :
  length (filter P l) + length (filter (λ x, ¬ P x) l) = length l.
Proof. by rewrite <-length_app, filter_app_complement. Qed.

Lemma confined_length d area cs S :
  length area = d → rule_applies d area cs S →
  length (confined cs S area) = size S.
Proof.
  unfold rule_applies, test_idx_of, confined. intros Hlen Happ.
  pose proof (length_filter_complement (λ i, cell cs i ⊆ S) area). lia.
Qed.

(** Pigeonhole: an injective choice of values inside [S] needs [size S] room. *)
Lemma injective_choice_size (f : nat → Z) (l : list nat) (S : gset Z) :
  NoDup l → (∀ x y, x ∈ l → y ∈ l → f x = f y → x = y) →
  (∀ x, x ∈ l → f x ∈ S) → length l ≤ size S.
Proof.
  intros Hnd Hinj Hin.
  assert (NoDup (f <$> l)) as Hnd' by (by apply NoDup_fmap_2_strong).
  rewrite <-(length_fmap f l), <-(size_list_to_set (C := gset Z)) by done.
  apply subseteq_size. intros v Hv.
  apply elem_of_list_to_set, list_elem_of_fmap in Hv as (x & -> & Hx). by apply Hin.
Qed.

Lemma reduce_subset_picks N d area cs S f :
  length area = d → NoDup area →
  (∀ x y, x ∈ area → y ∈ area → f x = f y → x = y) →
  (∀ i, i ∈ area → i < N) →
  picks_from N cs f → picks_from N (reduce_subset d area cs S) f.
Proof.
  intros Hlen Hnd Hinj Hrange Hpick i Hi.
  rewrite reduce_subset_cell. case_decide as Hcase; [|by apply Hpick].
  destruct Hcase as (Happ & Hiarea & Hnot).
  apply elem_of_difference. split; [by apply Hpick|]. intros HfS.
  pose proof (confined_length _ _ _ _ Hlen Happ) as Hconf.
  assert (length (i :: confined cs S area) ≤ size S) as Hle; [|simpl in Hle; lia].
  apply (injective_choice_size f).
  - apply list.NoDup_cons. split; [|by apply list.NoDup_filter].
    unfold confined. rewrite list_elem_of_filter. tauto.
  - intros x y Hx Hy. apply Hinj.
    + apply elem_of_cons in Hx as [->|Hx]; [done|].
      unfold confined in Hx. by apply list_elem_of_filter in Hx as [_ ?].
    + apply elem_of_cons in Hy as [->|Hy]; [done|].
      unfold confined in Hy. by apply list_elem_of_filter in Hy as [_ ?].
  - intros x Hx. apply elem_of_cons in Hx as [->|Hx]; [done|].
    unfold confined in Hx. apply list_elem_of_filter in Hx as [Hsub Hxa].
    apply Hsub, Hpick, Hrange, Hxa.
Qed.

Lemma reduce_area_picks N d table area cs f :
  length area = d → NoDup area →
  (∀ x y, x ∈ area → y ∈ area → f x = f y → x = y) →
  (∀ i, i ∈ area → i < N) →
  picks_from N cs f → picks_from N (reduce_area d table cs area) f.
Proof.
  intros Hlen Hnd Hinj Hrange. unfold reduce_area. revert cs.
  induction table as [|e table IH]; intros cs Hpick; [done|].
  cbn [foldl]. apply IH. by apply reduce_subset_picks.
Qed.

Lemma reduce_areas_picks N d table family cs f :
  Forall (λ area, length area = d ∧ NoDup area
                  ∧ (∀ x y, x ∈ area → y ∈ area → f x = f y → x = y)
                  ∧ (∀ i, i ∈ area → i < N)) family →
  picks_from N cs f → picks_from N (foldl (reduce_area d table) cs family) f.
Proof.
  intros Hfam. revert cs.
  induction Hfam as [|area family (? & ? & ? & ?) _ IH]; intros cs Hpick; [done|].
  cbn [foldl]. apply IH. by apply reduce_area_picks.
Qed.

Lemma exactly_once_injective (f : nat → Z) (area : list nat) (vals : list Z) :
  Forall (λ v, length (filter (λ i, f i = v) area) = 1) vals →
  (∀ i, i ∈ area → f i ∈ vals) →
  ∀ x y, x ∈ area → y ∈ area → f x = f y → x = y.
Proof.
  intros Honce Hvals x y Hx Hy Hxy.
  rewrite list.Forall_forall in Honce. specialize (Honce (f x) (Hvals x Hx)).
  destruct (filter (λ i, f i = f x) area) as [|z [|??]] eqn:Hfilter; try done.
  assert (x ∈ [z]) as Hxz by (rewrite <-Hfilter; by apply list_elem_of_filter).
  assert (y ∈ [z]) as Hyz by (rewrite <-Hfilter; by apply list_elem_of_filter).
  apply list_elem_of_singleton in Hxz, Hyz. congruence.
Qed.

Lemma candidates_in_range_cell g i v :
  candidates_in_range g → v ∈ cell (grid g) i → v ∈ values g.
Proof.
  intros Hrange Hv. destruct (decide (i < length (grid g))) as [Hi|Hi].
  - unfold candidates_in_range in Hrange. rewrite list.Forall_forall in Hrange.
    apply lookup_cell in Hi. apply list_elem_of_lookup_2 in Hi.
    apply Hrange in Hi. apply Hi in Hv. by apply elem_of_list_to_set in Hv.
  - rewrite cell_ge in Hv by lia. set_solver.
Qed.

(** A complete assignment of the grid before a pass is still one after it. *)
Lemma reduce_options_keeps_assignment m n segments g f :
  grid_of m n segments g → candidates_in_range g → complete_assignment g f →
  picks_from (length (grid g)) (grid (reduce_options g)) f.
Proof.
  intros Hg Hrange [Hpick Honce].
  rewrite list.Forall_forall in Hpick.
  assert (picks_from (length (grid g)) (grid g) f) as Hpicks.
  { intros i Hi. apply Hpick, elem_of_seq. lia. }
  apply reduce_areas_picks; [|done].
  apply list.Forall_forall. intros area Harea.
  destruct (grid_of_area _ _ _ _ _ Hg Harea) as (Hlen & Hnd & Hin).
  split_and!; try done.
  apply exactly_once_injective with (values g).
  - rewrite list.Forall_forall in Honce. by apply Honce.
  - intros i Hi. eapply candidates_in_range_cell; [done|]. by apply Hpicks, Hin.
Qed.

Lemma SudokuGrid_init_grid_of m n segments g :
  SudokuGrid_init m n segments = Some g → grid_of m n segments g.
Proof. intros Hinit. exists g. split_and!; [done|by destruct g|done]. Qed.

Lemma with_grid_grid_of m n segments g cs :
  grid_of m n segments g → length cs = length (grid g) →
  grid_of m n segments (with_grid g cs).
Proof.
  intros (g0 & Hinit & Hg & Hlen) Hcs. exists g0. split_and!; [done| |].
  - rewrite Hg. done.
  - cbn [with_grid grid]. by rewrite Hcs.
Qed.

Lemma set_values_grid g row col vals g' :
  set_values g row col vals = Some g' →
  row * side g + col < length (grid g)
  ∧ g' = with_grid g (<[row * side g + col := vals]> (grid g)).
Proof.
  unfold set_values, list_assign. case_decide; [|done].
  cbn. by intros [= <-].
Qed.

Lemma set_values_grid_of m n segments g row col vals g' :
  grid_of m n segments g → set_values g row col vals = Some g' →
  grid_of m n segments g'.
Proof.
  intros Hg Hset. apply set_values_grid in Hset as [_ ->].
  apply with_grid_grid_of; [done|]. apply length_insert.
Qed.

(** A constructed grid with one cell overwritten is a grid of the program. *)
Lemma grid_of_built m n segments row col vals g :
  (g0 ← SudokuGrid_init m n segments; set_values g0 row col vals) = Some g →
  grid_of m n segments g.
Proof.
  destruct (SudokuGrid_init m n segments) as [g0|] eqn:Hinit; [|done].
  cbn. intros Hset. eapply set_values_grid_of; [|done].
  by apply SudokuGrid_init_grid_of.
Qed.

(** ** Validity *)

Lemma forallb_false_iff {A} (f : A → bool) (l : list A) :
  forallb f l = false ↔ ∃ x, x ∈ l ∧ f x = false.
Proof.
  induction l as [|a l IH]; cbn [forallb].
  - split; [done|]. intros (x & Hx & _). by apply elem_of_nil in Hx.
  - rewrite andb_false_iff, IH. split.
    + intros [Ha|(x & Hx & Hfx)].
      * exists a. split; [apply elem_of_cons; by left|done].
      * exists x. split; [apply elem_of_cons; by right|done].
    + intros (x & Hx & Hfx). apply elem_of_cons in Hx as [->|Hx]; [by left|].
      right. by exists x.
Qed.

Lemma size_list_to_set_le (l : list Z) : size (list_to_set l : gset Z) ≤ length l.
Proof.
  induction l as [|x l IH]; [by rewrite list_to_set_nil, size_empty|].
  rewrite list_to_set_cons, size_union_alt, size_singleton. cbn [length].
  pose proof (subseteq_size (list_to_set l ∖ {[x]}) (list_to_set l : gset Z)) as Hle.
  assert (list_to_set l ∖ {[x]} ⊆ (list_to_set l : gset Z)) by set_solver.
  specialize (Hle H). lia.
Qed.

Lemma size_list_to_set_NoDup (l : list Z) :
  length l = size (list_to_set l : gset Z) ↔ NoDup l.
Proof.
  split; [|intros Hnd; by rewrite size_list_to_set].
  induction l as [|x l IH]; [constructor|].
  rewrite list_to_set_cons. cbn [length]. intros Hlen.
  pose proof (size_list_to_set_le l) as Hle.
  destruct (decide (x ∈ l)) as [Hx|Hx].
  - exfalso. rewrite subseteq_union_1_L in Hlen; [lia|].
    intros y Hy. apply elem_of_singleton in Hy as ->. by apply elem_of_list_to_set.
  - rewrite size_union, size_singleton in Hlen.
    + apply list.NoDup_cons. split; [done|]. apply IH. lia.
    + intros y Hy Hy'. apply elem_of_singleton in Hy as ->.
      by apply elem_of_list_to_set in Hy'.
Qed.

(** A repeated image under [f] of a list without repetitions comes from two
    different elements. *)
Lemma fmap_repeat_pair (f : nat → Z) (l : list nat) :
  NoDup l → ¬ NoDup (f <$> l) →
  ∃ x y, x ≠ y ∧ x ∈ l ∧ y ∈ l ∧ f x = f y.
Proof.
  induction l as [|a l IH]; intros Hnd Hdup.
  - exfalso. apply Hdup. constructor.
  - apply list.NoDup_cons in Hnd as [Ha Hnd]. rewrite fmap_cons in Hdup.
    destruct (decide (f a ∈ f <$> l)) as [Hin|Hin].
    + apply list_elem_of_fmap in Hin as (y & Hfy & Hy).
      exists a, y. split_and!; [by intros ->|by left|by right|done].
    + destruct IH as (x & y & Hxy & Hx & Hy & Hf); [done| |].
      * intros Hnd'. apply Hdup. by apply list.NoDup_cons.
      * exists x, y. split_and!; [done|by right|by right|done].
Qed.

Lemma NoDup_fmap_inj_on (f : nat → Z) (l : list nat) :
  NoDup (f <$> l) → ∀ x y, x ∈ l → y ∈ l → f x = f y → x = y.
Proof.
  induction l as [|a l IH]; intros Hnd x y Hx Hy Hf.
  - by apply elem_of_nil in Hx.
  - rewrite fmap_cons in Hnd. apply list.NoDup_cons in Hnd as [Ha Hnd].
    apply elem_of_cons in Hx as [->|Hx], Hy as [->|Hy]; [done| | |by apply IH].
    + exfalso. apply Ha. rewrite Hf. by apply list_elem_of_fmap_2.
    + exfalso. apply Ha. rewrite <-Hf. by apply list_elem_of_fmap_2.
Qed.

Lemma defined_lookup g i :
  defined g !! i = Some true ↔ i < length (grid g) ∧ size (cell (grid g) i) = 1.
Proof.
  unfold defined. rewrite list_lookup_fmap. split.
  - intros Hdef. destruct (grid g !! i) as [x|] eqn:Hx; [|done].
    pose proof (lookup_lt_Some _ _ _ Hx). rewrite (cell_lookup _ _ _ Hx).
    simpl in Hdef. injection Hdef as Hdef. by apply bool_decide_eq_true in Hdef.
  - intros [Hi Hsize]. rewrite (lookup_cell _ _ Hi). simpl.
    by rewrite bool_decide_eq_true_2.
Qed.

Lemma size_one_first_of (x : gset Z) : size x = 1 ↔ x = {[first_of x]}.
Proof.
  split.
  - intros Hsize. apply size_1_elem_of in Hsize as [y Hy].
    apply leibniz_equiv in Hy. subst x.
    unfold first_of. by rewrite elements_singleton.
  - intros ->. apply size_singleton.
Qed.

(** The two tests of [validate_area], read as properties of the area. *)
Lemma validate_area_values g area :
  (∀ i, cell (grid g) i ⊆ list_to_set (values g)) →
  (⋃ ((λ i, cell (grid g) i) <$> area) : gset Z) ≠ list_to_set (values g)
  ↔ area_misses_value g area.
Proof.
  intros Hrange. set (vals := ⋃ _). split.
  - intros Hne.
    assert (vals ⊆ list_to_set (values g)) as Hsub.
    { intros v Hv. apply elem_of_union_list in Hv as (X & HX & Hv).
      apply list_elem_of_fmap in HX as (i & -> & _). exact (Hrange i v Hv). }
    assert (list_to_set (values g) ∖ vals ≠ (∅ : gset Z)) as Hdiff.
    { intros Hempty. apply Hne. apply set_eq. intros v. split; [apply Hsub|].
      intros Hv. destruct (decide (v ∈ vals)); [done|]. set_solver. }
    apply set_choose_L in Hdiff as [v Hv].
    apply elem_of_difference in Hv as [Hv Hnot].
    exists v. split; [by apply elem_of_list_to_set in Hv|].
    intros i Hi Hin. apply Hnot, elem_of_union_list.
    exists (cell (grid g) i). split; [|done].
    apply list_elem_of_fmap. by exists i.
  - intros (v & Hv & Hmiss) Heq.
    assert (v ∈ vals) as Hin by (rewrite Heq; by apply elem_of_list_to_set).
    apply elem_of_union_list in Hin as (X & HX & Hin).
    apply list_elem_of_fmap in HX as (i & -> & Hi). by apply (Hmiss i).
Qed.

Lemma validate_area_exact g area :
  NoDup area →
  let exact_vals :=
    (λ i, first_of (cell (grid g) i))
      <$> filter (λ i, defined g !! i = Some true) area in
  length exact_vals ≠ size (list_to_set exact_vals : gset Z)
  ↔ area_repeats_value g area.
Proof.
  intros Hnd exact_vals. rewrite size_list_to_set_NoDup. split.
  - intros Hdup. apply fmap_repeat_pair in Hdup
      as (i & j & Hij & Hi & Hj & Hsame); [|by apply list.NoDup_filter].
    apply list_elem_of_filter in Hi as [Hdi Hi], Hj as [Hdj Hj].
    apply defined_lookup in Hdi as [_ Hdi], Hdj as [_ Hdj].
    apply size_one_first_of in Hdi, Hdj.
    exists i, j, (first_of (cell (grid g) i)).
    split_and!; [done..|]. by rewrite Hsame.
  - intros (i & j & v & Hij & Hi & Hj & Hci & Hcj) Hnodup.
    assert (∀ k, k ∈ area → cell (grid g) k = {[v]} →
                 k ∈ filter (λ i, defined g !! i = Some true) area) as Hfilter.
    { intros k Hk Hck. apply list_elem_of_filter. split; [|done].
      apply defined_lookup. split; [|by rewrite Hck, size_singleton].
      destruct (decide (k < length (grid g))); [done|].
      rewrite cell_ge in Hck by lia. exfalso.
      assert (v ∈ (∅ : gset Z)) by (rewrite Hck; set_solver). set_solver. }
    apply Hij. eapply (NoDup_fmap_inj_on _ _ Hnodup); [by apply Hfilter..|].
    by rewrite Hci, Hcj.
Qed.

Lemma candidates_in_range_cells g :
  candidates_in_range g → ∀ i, cell (grid g) i ⊆ list_to_set (values g).
Proof.
  intros Hrange i v Hv. apply elem_of_list_to_set.
  by apply (candidates_in_range_cell g i).
Qed.

Lemma validate_area_false g area :
  NoDup area → candidates_in_range g →
  validate_area g area = false
  ↔ area_misses_value g area ∨ area_repeats_value g area.
Proof.
  intros Hnd Hrange. unfold validate_area.
  rewrite andb_false_iff, !bool_decide_eq_false.
  rewrite validate_area_values by (by apply candidates_in_range_cells).
  by rewrite (validate_area_exact g area Hnd).
Qed.

(** ** Fixpoints of the reduction *)








Lemma elem_of_prefix_set k v : v ∈ prefix_set k ↔ (1 ≤ v ≤ Z.of_nat k)%Z.
Proof.
  unfold prefix_set. rewrite elem_of_list_to_set, list_elem_of_fmap. split.
  - intros (x & -> & Hx). apply elem_of_seq in Hx. lia.
  - intros Hv. exists (Z.to_nat v). split; [lia|]. apply elem_of_seq. lia.
Qed.






Lemma simplify_grid_of m n segments g :
  grid_of m n segments g → grid_of m n segments (simplify g).
Proof.
  intros Hg. rewrite simplify_layout. apply with_grid_grid_of; [done|].
  apply narrows_length, simplify_narrows.
Qed.

Lemma simplify_keeps_empty g c :
  c < length (grid g) → cell (grid g) c = ∅ →
  c < length (grid (simplify g)) ∧ cell (grid (simplify g)) c = ∅.
Proof.
  intros Hc Hempty. pose proof (simplify_narrows g) as Hnar. split.
  - by rewrite (narrows_length _ _ Hnar).
  - destruct (narrows_cell _ _ c Hnar) as [Hsub _].
    rewrite Hempty in Hsub. set_solver.
Qed.

(** ** The lookahead loop on a grid with an empty cell *)

Lemma good_values_empty g idx :
  cell (grid g) idx = ∅ → good_values g idx = Some ∅.
Proof. intros Hempty. unfold good_values. by rewrite Hempty, elements_empty. Qed.

Lemma flat_index idx d : idx / d * d + idx mod d = idx.
Proof. pose proof (Nat.div_mod_eq idx d). lia. Qed.

(** One step of the [for] loop leaves an empty cell empty. *)
Lemma solve_cell_keeps_empty g idx g' c :
  c < length (grid g) → cell (grid g) c = ∅ →
  solve_cell g idx = Some g' →
  c < length (grid g') ∧ cell (grid g') c = ∅.
Proof.
  intros Hc Hempty. unfold solve_cell. case_decide as Hdef; [|by intros [= <-]].
  destruct (good_values g idx) as [good_set|] eqn:Hgood; [|done]. cbn.
  destruct (set_values g _ _ good_set) as [g1|] eqn:Hset; [|done]. cbn.
  intros [= <-]. apply set_values_grid in Hset as [Hidx ->].
  rewrite flat_index in *. apply simplify_keeps_empty; cbn [with_grid grid].
  - by rewrite length_insert.
  - rewrite cell_insert. case_decide as Hsame; [|done].
    destruct Hsame as [-> _]. rewrite good_values_empty in Hgood by done.
    by injection Hgood as <-.
Qed.

Lemma solve_cells_keeps_empty g rest g' c :
  c < length (grid g) → cell (grid g) c = ∅ →
  solve_cells g rest = Some g' →
  c < length (grid g') ∧ cell (grid g') c = ∅.
Proof.
  unfold solve_cells. revert g.
  induction rest as [|idx rest IH]; intros g Hc Hempty; cbn [for_each].
  - by intros [= <-].
  - destruct (solve_cell g idx) as [g1|] eqn:Hcell; [|done]. cbn.
    destruct (solve_cell_keeps_empty _ _ _ _ Hc Hempty Hcell). by apply IH.
Qed.

Lemma empty_cell_not_all_defined g c :
  c < length (grid g) → cell (grid g) c = ∅ → forallb id (defined g) = false.
Proof.
  intros Hc Hempty. apply forallb_false_iff. exists false. split; [|done].
  apply list_elem_of_lookup. exists c. unfold defined.
  rewrite list_lookup_fmap, (lookup_cell _ _ Hc), Hempty. cbn.
  by rewrite size_empty.
Qed.

Lemma solve_loop_never_returns fuel g g' c :
  c < length (grid g) → cell (grid g) c = ∅ → solve_loop fuel g ≠ Returned g'.
Proof.
  revert g. induction fuel as [|fuel IH]; intros g Hc Hempty; cbn [solve_loop];
    rewrite (empty_cell_not_all_defined g c Hc Hempty); [done|].
  destruct (solve_cells g _) as [g1|] eqn:Hpass; [|done].
  destruct (solve_cells_keeps_empty _ _ _ _ Hc Hempty Hpass). by apply IH.
Qed.

(** ** The elimination rule, entry by entry *)


(** ** When the trial grid is a clone, and when [solve()] cannot raise *)

Lemma list_assign_some {A} (l : list A) i x :
  i < length l → list_assign l i x = Some (<[i := x]> l).
Proof. intros Hi. unfold list_assign. by rewrite decide_True. Qed.

(** The copy loop, started at index [a] with [n] cells to go. *)
Lemma copy_loop_some live n a cs :
  a + n ≤ length cs →
  ∃ cs', for_each (λ cs i, list_assign cs i (cell live i)) cs (seq a n) = Some cs'
         ∧ length cs' = length cs
         ∧ ∀ i, cell cs' i = if decide (a ≤ i < a + n) then cell live i else cell cs i.
Proof.
  revert a cs. induction n as [|n IH]; intros a cs Hlen; cbn [seq for_each].
  - exists cs. split_and!; [done..|]. intros i. rewrite decide_False; [done|lia].
  - rewrite list_assign_some by lia. cbn.
    destruct (IH (S a) (<[a := cell live a]> cs)) as (cs' & Hrun & Hlen' & Hcell).
    { rewrite length_insert. lia. }
    exists cs'. split_and!; [done|by rewrite Hlen', length_insert|].
    intros i. rewrite Hcell, cell_insert.
    destruct (decide (a = i)) as [->|Hne].
    + rewrite decide_False by lia. rewrite decide_True by lia.
      by rewrite decide_True by lia.
    + rewrite (decide_False (P := a = i ∧ _)) by tauto.
      destruct (decide (S a ≤ i < S a + n)).
      * by rewrite decide_True by lia.
      * by rewrite decide_False by lia.
Qed.

Lemma copy_cells_some live fresh :
  length live ≤ length fresh →
  ∃ cells, copy_cells live fresh = Some cells
           ∧ length cells = length fresh
           ∧ ∀ i, cell cells i
                  = if decide (i < length live) then cell live i else cell fresh i.
Proof.
  intros Hlen. unfold copy_cells.
  destruct (copy_loop_some live (length live) 0 fresh) as (cells & Hrun & Hl & Hcell);
    [lia|].
  exists cells. split_and!; [done..|]. intros i. rewrite Hcell.
  destruct (decide (i < length live)).
  - by rewrite decide_True by lia.
  - by rewrite decide_False by lia.
Qed.

Lemma SudokuGrid_init_default m n :
  SudokuGrid_init m n None
  = Some (mkGrid (m * n, m * n)
            ((λ k, Z.of_nat k) <$> range 1 (m * n + 1))
            (replicate ((m * n) ^ 2)
               (list_to_set ((λ k, Z.of_nat k) <$> range 1 (m * n + 1))))
            ((row_areas (m * n) ++ col_areas (m * n)) ++ block_areas m n)
            (subset_table (m * n))).
Proof. done. Qed.

(** Where the trial grid of a live grid with at most 81 cells puts what. *)
Lemma trial_grid_some g idx v :
  length (grid g) ≤ 81 → idx / side g * 9 + idx mod side g < 81 →
  ∃ t, trial_grid g idx v = Some t
       ∧ SudokuGrid_init 3 3 None = Some (with_grid t (replicate 81 (prefix_set 9)))
       ∧ length (grid t) = 81
       ∧ ∀ i, cell (grid t) i
              = if decide (i = idx / side g * 9 + idx mod side g) then {[v]}
                else if decide (i < length (grid g)) then cell (grid g) i
                else if decide (i < 81) then prefix_set 9 else ∅.
Proof.
  intros Hlen Hidx. unfold trial_grid. rewrite SudokuGrid_init_default.
  cbn [mbind option_bind grid].
  change (3 * 3) with 9. change (9 ^ 2) with 81.
  change (list_to_set ((λ k, Z.of_nat k) <$> range 1 (9 + 1))) with (prefix_set 9).
  destruct (copy_cells_some (grid g) (replicate 81 (prefix_set 9)))
    as (cells & -> & Hcl & Hcell); [by rewrite length_replicate|].
  rewrite length_replicate in Hcl. cbn [mbind option_bind].
  unfold set_values, list_assign.
  change (side (with_grid _ cells)) with 9. cbn [with_grid grid].
  rewrite decide_True by lia. cbn [fmap option_fmap option_map].
  eexists. split_and!;
    [reflexivity|reflexivity|cbn [with_grid grid]; by rewrite length_insert|].
  intros i. cbn [with_grid grid]. rewrite cell_insert, Hcell.
  destruct (decide (i = idx / side g * 9 + idx mod side g)) as [->|Hne].
  - by rewrite decide_True by (split; [done|lia]).
  - rewrite decide_False by (intros [? _]; done).
    destruct (decide (i < length (grid g))); [done|].
    destruct (decide (i < 81)) as [Hi|Hi].
    + unfold cell. by rewrite list_lookup_total_alt, lookup_replicate_2.
    + apply cell_ge. rewrite length_replicate. lia.
Qed.

(** For the standard shape with the default blocks, C1 does hold: the trial
    grid is the live grid with [{v}] at the cell under trial. *)
Lemma trial_grid_clone_9x9 g idx v :
  grid_of 3 3 None g → idx < 81 →
  trial_grid g idx v = Some (with_grid g (<[idx := {[v]}]> (grid g))).
Proof.
  intros Hg Hidx.
  destruct (grid_of_layout _ _ _ _ Hg) as (Hside & Hlen & _).
  change (3 * 3) with 9 in *. change (9 ^ 2) with 81 in Hlen.
  destruct (trial_grid_some g idx v) as (t & -> & Hinit & Htl & Hcell).
  { lia. }
  { by rewrite Hside, flat_index. }
  assert (grid t = <[idx := {[v]}]> (grid g)) as Hgrid.
  { apply cells_ext; [by rewrite length_insert, Htl, Hlen|].
    intros i. rewrite Hcell, cell_insert, Hside, flat_index, Hlen.
    destruct (decide (i = idx)) as [->|Hne].
    - by rewrite decide_True by (split; [done|lia]).
    - rewrite (decide_False (P := idx = i ∧ _)) by (intros [? _]; done).
      destruct (decide (i < 81)); [done|].
      symmetry. apply cell_ge. lia. }
  destruct Hg as (g0 & Hg0 & Hgg & _).
  rewrite Hg0 in Hinit. apply (inj Some) in Hinit.
  f_equal. rewrite <-Hgrid, Hgg, Hinit. by destruct t.
Qed.

Lemma for_each_some {S A} (body : S → A → option S) (l : list A) s :
  (∀ s x, x ∈ l → is_Some (body s x)) → is_Some (for_each body s l).
Proof.
  revert s. induction l as [|x l IH]; intros s Hbody; cbn [for_each]; [done|].
  destruct (Hbody s x) as [s' ->]; [by left|]. cbn.
  apply IH. intros s'' y Hy. apply Hbody. by right.
Qed.

(** With a side of at most 9, one step of the [for] loop raises nothing. *)
Lemma solve_cell_some m n segments g idx :
  grid_of m n segments g → m * n ≤ 9 → idx < length (grid g) →
  ∃ g', solve_cell g idx = Some g' ∧ grid_of m n segments g'.
Proof.
  intros Hg Hmn Hidx.
  destruct (grid_of_layout _ _ _ _ Hg) as (Hside & Hlen & _).
  assert (length (grid g) ≤ 81) as Hle.
  { rewrite Hlen, Nat.pow_2_r. nia. }
  assert (0 < m * n) as Hpos.
  { destruct (m * n); [rewrite Hlen in Hidx; cbn in Hidx; lia|lia]. }
  assert (idx / side g * 9 + idx mod side g < 81) as Htrial.
  { rewrite Hside. rewrite Hlen, Nat.pow_2_r in Hidx.
    assert (idx / (m * n) < m * n) by (apply Nat.Div0.div_lt_upper_bound; lia).
    assert (idx mod (m * n) < m * n) by (apply Nat.mod_upper_bound; lia).
    lia. }
  unfold solve_cell. case_decide; [|by exists g].
  assert (is_Some (good_values g idx)) as [good_set ->].
  { unfold good_values. apply for_each_some. intros good_set v _.
    destruct (trial_grid_some g idx v Hle Htrial) as (t & -> & _). by cbn. }
  cbn. unfold set_values at 1, list_assign.
  rewrite flat_index, decide_True by done. cbn.
  eexists. split; [done|].
  apply simplify_grid_of, with_grid_grid_of; [done|apply length_insert].
Qed.

Lemma solve_cells_some m n segments g rest :
  grid_of m n segments g → m * n ≤ 9 →
  Forall (λ idx, idx < length (grid g)) rest →
  ∃ g', solve_cells g rest = Some g' ∧ grid_of m n segments g'.
Proof.
  intros Hg Hmn. revert g Hg. unfold solve_cells.
  induction rest as [|idx rest IH]; intros g Hg Hrest; cbn [for_each].
  - by exists g.
  - apply list.Forall_cons in Hrest as [Hidx Hrest].
    destruct (solve_cell_some m n segments g idx) as (g1 & -> & Hg1); [done..|].
    cbn. apply IH; [done|].
    destruct (grid_of_layout _ _ _ _ Hg) as (_ & Hlen & _).
    destruct (grid_of_layout _ _ _ _ Hg1) as (_ & Hlen1 & _).
    by rewrite Hlen1, <-Hlen.
Qed.

(** With a side of at most 9 and an empty cell in the live grid, [solve()]
    runs on for ever: every amount of fuel is used up. *)
Lemma solve_loop_diverges m n segments g c fuel :
  grid_of m n segments g → m * n ≤ 9 →
  c < length (grid g) → cell (grid g) c = ∅ →
  solve_loop fuel g = OutOfFuel.
Proof.
  intros Hg Hmn. revert g Hg.
  induction fuel as [|fuel IH]; intros g Hg Hc Hempty; cbn [solve_loop];
    rewrite (empty_cell_not_all_defined g c Hc Hempty); [done|].
  destruct (solve_cells_some m n segments g (seq 0 (length (grid g))))
    as (g1 & Hpass & Hg1); [done..| |].
  { apply list.Forall_forall. intros idx Hidx. apply elem_of_seq in Hidx. lia. }
  rewrite Hpass.
  destruct (solve_cells_keeps_empty _ _ _ _ Hc Hempty Hpass). by apply IH.
Qed.

(** ** The subset table of a grid of side 9 *)







(** ** Set objects: when the value level is the code *)

Lemma deref_insert (h : Store) r X r' :
  deref (<[r := X]> h) r' = if decide (r = r') then X else deref h r'.
Proof.
  unfold deref. destruct (decide (r = r')) as [->|Hr].
  - by rewrite lookup_insert_eq.
  - by rewrite lookup_insert_ne.
Qed.

Lemma view_length h rs : length (view h rs) = length rs.
Proof. apply length_fmap. Qed.

Lemma cell_view h rs i r : rs !! i = Some r → cell (view h rs) i = deref h r.
Proof.
  intros Hr. apply cell_lookup. unfold view. by rewrite list_lookup_fmap, Hr.
Qed.

(** A change of the object of cell [j] is a change of cell [j] alone when
    no other cell holds that object. *)
Lemma view_update h rs j r X :
  NoDup rs → rs !! j = Some r →
  view (<[r := X]> h) rs = <[j := X]> (view h rs).
Proof.
  intros Hnodup Hj. apply list_eq. intros i. unfold view.
  rewrite list_lookup_insert, !list_lookup_fmap, length_fmap.
  destruct (rs !! i) as [r'|] eqn:Hi; cbn [fmap option_fmap option_map].
  - rewrite deref_insert. case_decide as Hr.
    + subst r'. rewrite (NoDup_lookup _ _ _ _ Hnodup Hj Hi).
      rewrite decide_True; [done|]. split; [done|by eapply lookup_lt_Some].
    + rewrite decide_False; [done|]. intros [-> _]. congruence.
  - rewrite decide_False; [done|]. intros [-> _]. congruence.
Qed.

Lemma remove_from_obj_view S rs h l :
  NoDup rs → view (remove_from_obj S rs h l) rs = remove_from S (view h rs) l.
Proof.
  intros Hnodup. revert h. unfold remove_from_obj, remove_from.
  induction l as [|j l IH]; intros h; [done|]. cbn [foldl].
  destruct (rs !! j) as [r|] eqn:Hj; rewrite IH; f_equal.
  - rewrite (view_update _ _ j) by done. by rewrite (cell_view _ _ _ _ Hj).
  - rewrite list_insert_ge; [done|]. rewrite view_length.
    by apply lookup_ge_None.
Qed.

Lemma reduce_subset_obj_view d area rs h S :
  NoDup rs →
  view (reduce_subset_obj d area rs h S) rs = reduce_subset d area (view h rs) S.
Proof.
  intros Hnodup. unfold reduce_subset_obj, reduce_subset.
  case_decide; [by apply remove_from_obj_view|done].
Qed.

Lemma reduce_area_obj_view d table rs h area :
  NoDup rs →
  view (reduce_area_obj d table rs h area) rs
  = reduce_area d table (view h rs) area.
Proof.
  intros Hnodup. unfold reduce_area_obj, reduce_area. revert h.
  induction table as [|entry table IH]; intros h; [done|]. cbn [foldl].
  by rewrite IH, reduce_subset_obj_view.
Qed.

(** On a grid in which no two cells hold one set object, [reduce_options]
    is the value-level function. *)
Lemma reduce_options_obj_view o h :
  NoDup (refs o) →
  snapshot (reduce_options_obj o h) o = reduce_options (snapshot h o).
Proof.
  intros Hnodup. unfold snapshot, reduce_options_obj, reduce_options, with_grid.
  cbn [dimensions values grid areas subsets side]. f_equal.
  generalize (areas (frame o)). intros family. revert h.
  induction family as [|area family IH]; intros h; [done|]. cbn [foldl].
  by rewrite IH, reduce_area_obj_view.
Qed.

Lemma grid_of_snapshot m n segments h o :
  SudokuGrid_init m n segments = Some (frame o) →
  length (refs o) = length (grid (frame o)) →
  grid_of m n segments (snapshot h o).
Proof.
  intros Hinit Hlen. exists (frame o). split_and!; [done|done|].
  cbn [snapshot grid with_grid]. by rewrite view_length.
Qed.

(** * The claims *)

(** C1 fails on the code.  [solve()] builds every trial grid with
    [SudokuGrid()], that is with [m = n = 3] and the default blocks.  For
    the solver of shape (2, 2) on a blank board, the first trial (cell 0,
    value 1) runs on a grid of side 9 with 81 cells and the 27 areas of the
    standard 9×9 grid, of which only the first 16 cells are copies of live
    cells; a trial for cell 5 would write its singleton at index 10.  For
    the solver of shape (3, 3) with the rows supplied as segments, the trial
    grid has the default blocks where the live grid has the rows. *)
Theorem trial_grid_is_not_a_clone :
  (SudokuSolver_init (2, 2) board_4x4_blank None = Some live_4x4
   ∧ simplify live_4x4 = live_4x4
   ∧ defined live_4x4 !! 0 = Some false
   ∧ 1%Z ∈ cell (grid live_4x4) 0
   ∧ trial_grid live_4x4 0 1 = Some first_trial_4x4
   ∧ side live_4x4 = 4 ∧ side first_trial_4x4 = 9
   ∧ length (grid live_4x4) = 16 ∧ length (grid first_trial_4x4) = 81
   ∧ length (areas live_4x4) = 12 ∧ length (areas first_trial_4x4) = 27
   ∧ areas first_trial_4x4 ≠ areas live_4x4
   ∧ cell (grid first_trial_4x4) 16 = prefix_set 9
   ∧ (∃ t, trial_grid live_4x4 5 1 = Some t
           ∧ cell (grid t) 5 = prefix_set 4 ∧ cell (grid t) 10 = {[1%Z]}))
  ∧ (SudokuSolver_init (3, 3) board_9x9_blank (Some (row_segments 9))
     = Some live_9x9_rows
     ∧ trial_grid live_9x9_rows 0 1 = Some first_trial_9x9_rows
     ∧ side first_trial_9x9_rows = side live_9x9_rows
     ∧ drop 18 (areas live_9x9_rows) = row_areas 9
     ∧ drop 18 (areas first_trial_9x9_rows) = block_areas 3 3
     ∧ areas first_trial_9x9_rows ≠ areas live_9x9_rows).
Proof.
  split; split_and!; try by_evaluating_sides; try by_evaluation.
  exists (default no_grid (trial_grid live_4x4 5 1)).
  split_and!; by_evaluating_sides.
Qed.

(** C2 fails on the code.  On the 4×4 grid of shape (2, 2), blank but for
    the ['1'] at (0,0), [simplify()] makes one pass and removes nothing:
    the value 1 is still a candidate of the other cells of row 0 (1, 2, 3),
    of column 0 (4, 8, 12) and of the first block (1, 4, 5).  The subset
    table of this grid only holds subsets of [{6, 7, 8, 9}]. *)
Theorem simplify_4x4_removes_nothing :
  SudokuSolver_init (2, 2) board_4x4_one None = Some grid_4x4_one
  ∧ cell (grid grid_4x4_one) 0 = {[1%Z]}
  ∧ [0; 1; 2; 3] ∈ areas grid_4x4_one
  ∧ [0; 4; 8; 12] ∈ areas grid_4x4_one
  ∧ [0; 1; 4; 5] ∈ areas grid_4x4_one
  ∧ simplify grid_4x4_one = grid_4x4_one
  ∧ simplify_passes grid_4x4_one = 1
  ∧ Forall (λ i, 1%Z ∈ cell (grid (simplify grid_4x4_one)) i)
      [1; 2; 3; 4; 8; 12; 5]
  ∧ Forall (λ entry, entry.2 ⊆ ({[6%Z; 7%Z; 8%Z; 9%Z]} : gset Z))
      (subsets grid_4x4_one).
Proof.
  split_and!; try by_evaluating_sides; by_evaluation.
Qed.

(** C3 fails on the code.  On the same 4×4 grid take the area
    [A = [0; 1; 2; 3]] (row 0) and [S = {1}], a non-empty subset of
    [{1..side}].  Exactly [|S| = 1] cell of [A] has its candidates within
    [S], cell 1 of [A] has not, and one call of [reduce_options] leaves
    the value 1 in cell 1: [S] is not in the subset table, which
    [get_subset] fills from nine binary digits whatever the side. *)
Theorem reduce_options_4x4_skips_rule :
  side grid_4x4_one = 4
  ∧ [0; 1; 2; 3] ∈ areas grid_4x4_one
  ∧ ({[1%Z]} : gset Z) ⊆ list_to_set (values grid_4x4_one)
  ∧ confined (grid grid_4x4_one) {[1%Z]} [0; 1; 2; 3] = [0]
  ∧ ¬ (cell (grid grid_4x4_one) 1 ⊆ {[1%Z]})
  ∧ 1%Z ∈ cell (grid (reduce_options grid_4x4_one)) 1
  ∧ reduce_options grid_4x4_one = grid_4x4_one
  ∧ (({[1%Z]} : gset Z) ∉ snd <$> subsets grid_4x4_one)
  ∧ get_subset 1 = {[9%Z]}.
Proof.
  split_and!; try by_evaluating_sides; by_evaluation.
Qed.

(** C4 (as amended). Soundness of the elimination: on a grid object of the
    program in which no two cells hold one set object and whose candidate
    sets lie within [{1..side}], a value [v] that one call of
    [reduce_options] removes from cell [c] is not the value of [c] in any
    complete assignment that is consistent with the candidates as they
    were before the call. *)
Theorem reduce_options_sound m n segments o h f c v :
  grid_of m n segments (snapshot h o) → NoDup (refs o) →
  candidates_in_range (snapshot h o) → complete_assignment (snapshot h o) f →
  v ∈ cell (view h (refs o)) c →
  v ∉ cell (view (reduce_options_obj o h) (refs o)) c →
  f c ≠ v.
Proof.
  intros Hg Hnodup Hrange Hf Hbefore Hafter Hfc.
  assert (c < length (view h (refs o))) as Hc.
  { destruct (decide (c < length (view h (refs o)))); [done|].
    rewrite cell_ge in Hbefore by lia. set_solver. }
  apply Hafter. rewrite <-Hfc.
  change (view (reduce_options_obj o h) (refs o))
    with (grid (snapshot (reduce_options_obj o h) o)).
  rewrite reduce_options_obj_view by done.
  by apply (reduce_options_keeps_assignment m n segments (snapshot h o) f).
Qed.

Lemma reduce_options_sound_witness :
  complete_assignment (snapshot objects_5x1_five.2 objects_5x1_five.1) latin5
  ∧ 5%Z ∈ cell (view objects_5x1_five.2 (refs objects_5x1_five.1)) 1
  ∧ latin5 1 ≠ 5%Z.
Proof.
  assert (complete_assignment
            (snapshot objects_5x1_five.2 objects_5x1_five.1) latin5) as Hf
    by by_evaluation.
  assert (5%Z ∈ cell (view objects_5x1_five.2 (refs objects_5x1_five.1)) 1)
    as Hv by by_evaluation.
  split_and!; [exact Hf|exact Hv|].
  apply (reduce_options_sound 5 1 None objects_5x1_five.1 objects_5x1_five.2
           latin5 1 5%Z); [| | |exact Hf|exact Hv|].
  - apply grid_of_snapshot; [by_evaluating_sides|by_evaluating_sides].
  - by_evaluation.
  - by_evaluation.
  - by_evaluation.
Defined.

(** C4 as stated fails on a grid in which two cells hold one set object:
    after [g = SudokuGrid(); g.set_values(0, 0, {3}); s = {3, 4};
    g.set_values(0, 1, s); g.set_values(3, 2, s)] the call removes 3 from
    the set [s] because of row 0, and with it from cell 29, where a
    complete assignment consistent with the candidates has 3. *)
Lemma reduce_options_unsound_on_shared_set :
  grid_of 3 3 None (snapshot objects_9x9_shared.2 objects_9x9_shared.1)
  ∧ refs objects_9x9_shared.1 !! 1 = refs objects_9x9_shared.1 !! 29
  ∧ candidates_in_range (snapshot objects_9x9_shared.2 objects_9x9_shared.1)
  ∧ complete_assignment
      (snapshot objects_9x9_shared.2 objects_9x9_shared.1) solution_main_1
  ∧ 3%Z ∈ cell (view objects_9x9_shared.2 (refs objects_9x9_shared.1)) 29
  ∧ (3%Z ∉ cell (view (reduce_options_obj objects_9x9_shared.1
                         objects_9x9_shared.2)
                   (refs objects_9x9_shared.1)) 29)
  ∧ solution_main_1 29 = 3%Z.
Proof.
  split_and!; [|vm_compute; reflexivity|by_evaluation..|reflexivity].
  apply grid_of_snapshot; by_evaluating_sides.
Qed.

(** C5 (as amended). One call of [reduce_options] enlarges no candidate
    set, the sum of the candidate-set sizes never grows along a sequence of
    calls, and [simplify()] reaches its [break]; it makes at least one pass
    and at most [max(1, initial sum)] passes. *)
Theorem simplify_terminates g :
  (length (grid (reduce_options g)) = length (grid g)
   ∧ ∀ i, cell (grid (reduce_options g)) i ⊆ cell (grid g) i)
  ∧ (∀ j k, j ≤ k → options (reduce_times k g) ≤ options (reduce_times j g))
  ∧ ∃ g' passes,
      (∀ fuel, options g < fuel →
               simplify_loop fuel g (options g) = Some (g', passes))
      ∧ simplify g = g'
      ∧ 1 ≤ passes ≤ max 1 (options g).
Proof.
  split_and!.
  - apply narrows_length, reduce_options_narrows.
  - intros i. by apply narrows_cell, reduce_options_narrows.
  - intros j k Hjk. induction Hjk as [|k _ IH]; [done|].
    etrans; [apply reduce_times_options_le|done].
  - destruct (simplify_loop_total (S (options g)) g)
      as (g' & passes & Hrun & Hpasses & _); [lia|].
    exists g', passes. split_and!; [|by unfold simplify; rewrite Hrun|lia..].
    intros fuel Hfuel. eapply simplify_loop_more_fuel; [done|lia].
Qed.

(** C5 as stated fails on a grid whose cells are all empty: the initial sum
    is 0 and [simplify()] still makes its one pass. *)
Lemma simplify_passes_exceed_sum :
  options grid_1x1_emptied = 0
  ∧ simplify_loop 1 grid_1x1_emptied (options grid_1x1_emptied)
    = Some (grid_1x1_emptied, 1)
  ∧ ¬ simplify_passes grid_1x1_emptied ≤ options grid_1x1_emptied.
Proof.
  split_and!; [vm_compute; reflexivity|vm_compute; reflexivity|by_evaluation].
Qed.

(** C6 (as amended). On a grid object of the program whose candidate sets
    lie within [{1..side}], [is_valid] is [False] exactly when some area
    misses a value of [{1..side}] in all its cells or holds two resolved
    cells with the same value. *)
Theorem is_valid_false_iff m n segments g :
  grid_of m n segments g → candidates_in_range g →
  is_valid g = false
  ↔ ∃ area, area ∈ areas g
            ∧ (area_misses_value g area ∨ area_repeats_value g area).
Proof.
  intros Hg Hrange. unfold is_valid. rewrite forallb_false_iff.
  split; intros (area & Harea & Hbad); exists area; (split; [done|]).
  - apply validate_area_false in Hbad; [done| |done].
    by destruct (grid_of_area _ _ _ _ _ Hg Harea) as (_ & ? & _).
  - apply validate_area_false; [|done..].
    by destruct (grid_of_area _ _ _ _ _ Hg Harea) as (_ & ? & _).
Qed.

Lemma is_valid_false_iff_witness :
  candidates_in_range grid_1x1_emptied
  ∧ (is_valid grid_1x1_emptied = false
     ↔ ∃ area, area ∈ areas grid_1x1_emptied
               ∧ (area_misses_value grid_1x1_emptied area
                  ∨ area_repeats_value grid_1x1_emptied area)).
Proof.
  assert (candidates_in_range grid_1x1_emptied) as Hrange by by_evaluation.
  split; [exact Hrange|].
  apply (is_valid_false_iff 1 1 None grid_1x1_emptied); [|exact Hrange].
  apply (grid_of_built 1 1 None 0 0 ∅). by_evaluating_sides.
Defined.

(** C6 as stated fails on a grid with a candidate outside [{1..side}]:
    [SudokuGrid(1, 1)] with cell 0 set to [{1, 2}] is not valid, yet its
    areas miss no value and repeat none. *)
Lemma is_valid_false_without_cause :
  is_valid grid_1x1_overfull = false
  ∧ ¬ ∃ area, area ∈ areas grid_1x1_overfull
              ∧ (area_misses_value grid_1x1_overfull area
                 ∨ area_repeats_value grid_1x1_overfull area).
Proof.
  split; [vm_compute; reflexivity|].
  assert (areas grid_1x1_overfull = [[0]; [0]; [0]]) as Hareas
    by (vm_compute; reflexivity).
  assert (values grid_1x1_overfull = [1%Z]) as Hvalues
    by (vm_compute; reflexivity).
  assert (1%Z ∈ cell (grid grid_1x1_overfull) 0) as Hcell by by_evaluation.
  intros (area & Harea & Hbad). rewrite Hareas in Harea.
  assert (area = [0]) as ->.
  { repeat (apply elem_of_cons in Harea as [->|Harea]; [done|]).
    by apply elem_of_nil in Harea. }
  destruct Hbad as [(v & Hv & Hmiss)|(i & j & v & Hij & Hi & Hj & _)].
  - rewrite Hvalues in Hv. apply list_elem_of_singleton in Hv as ->.
    apply (Hmiss 0); [apply list_elem_of_singleton; reflexivity|exact Hcell].
  - apply list_elem_of_singleton in Hi, Hj. congruence.
Qed.

(** C7. [simplify()] is idempotent: the grid it leaves is a fixpoint of
    [reduce_options], and a second [simplify()] leaves the same grid. *)
Theorem simplify_idempotent g :
  reduce_options (simplify g) = simplify g
  ∧ simplify (simplify g) = simplify g.
Proof.
  split; [apply simplify_fixpoint|].
  apply simplify_of_fixpoint, simplify_fixpoint.
Qed.

(** C8. For every shape [(m, n)] (in particular with [m, n ≥ 1]) and every
    segments argument the constructor accepts, the areas are the rows, then
    the columns, then the regions; each family has [side] groups of [side]
    distinct indices and partitions [{0..side²-1}]. *)
Theorem constructed_areas_partition m n segments g :
  SudokuGrid_init m n segments = Some g →
  side g = m * n
  ∧ ∃ rows cols regions,
      areas g = rows ++ cols ++ regions
      ∧ area_family (side g) rows
      ∧ area_family (side g) cols
      ∧ area_family (side g) regions.
Proof.
  intros Hinit.
  apply SudokuGrid_init_areas in Hinit as (regions & Hareas & Hfam & Hdim & _).
  unfold side. rewrite Hdim. split; [done|].
  exists (row_areas (m * n)), (col_areas (m * n)), regions.
  split_and!; [done|apply row_areas_family|apply col_areas_family|done].
Qed.

Lemma constructed_areas_partition_witness :
  SudokuGrid_init 2 2 (Some (row_segments 4)) = Some grid_2x2_rows
  ∧ side grid_2x2_rows = 2 * 2
  ∧ ∃ rows cols regions,
      areas grid_2x2_rows = rows ++ cols ++ regions
      ∧ area_family (side grid_2x2_rows) rows
      ∧ area_family (side grid_2x2_rows) cols
      ∧ area_family (side grid_2x2_rows) regions.
Proof.
  assert (SudokuGrid_init 2 2 (Some (row_segments 4)) = Some grid_2x2_rows)
    as Hinit by by_evaluating_sides.
  split; [exact Hinit|].
  exact (constructed_areas_partition 2 2 (Some (row_segments 4)) grid_2x2_rows Hinit).
Defined.




(** C10. Once a cell of the live grid has no candidate, every step of
    [solve()] leaves it so: [reduce_options] and [simplify()] only remove
    values and the surviving set computed for that cell is empty.  The loop
    guard therefore stays true, and [solve()] never returns: neither when
    resumed at any point of a pass, nor when called afresh. *)
Theorem solve_never_returns_with_empty_cell g c :
  c < length (grid g) → cell (grid g) c = ∅ →
  cell (grid (reduce_options g)) c = ∅
  ∧ cell (grid (simplify g)) c = ∅
  ∧ good_values g c = Some ∅
  ∧ (∀ idx g', solve_cell g idx = Some g' →
               c < length (grid g') ∧ cell (grid g') c = ∅)
  ∧ forallb id (defined g) = false
  ∧ (∀ fuel rest g', solve_resume fuel g rest ≠ Returned g')
  ∧ (∀ fuel g', solve fuel g ≠ Returned g').
Proof.
  intros Hc Hempty. split_and!.
  - destruct (narrows_cell _ _ c (reduce_options_narrows g)) as [Hsub _].
    rewrite Hempty in Hsub. set_solver.
  - by apply simplify_keeps_empty.
  - by apply good_values_empty.
  - intros idx g'. by apply solve_cell_keeps_empty.
  - by apply (empty_cell_not_all_defined g c).
  - intros fuel rest g'. unfold solve_resume.
    destruct (solve_cells g rest) as [g1|] eqn:Hrest; [|done].
    destruct (solve_cells_keeps_empty _ _ _ _ Hc Hempty Hrest).
    by apply (solve_loop_never_returns fuel g1 g' c).
  - intros fuel g'. unfold solve.
    destruct (simplify_keeps_empty g c Hc Hempty).
    by apply (solve_loop_never_returns _ _ _ c).
Qed.

Lemma solve_never_returns_with_empty_cell_witness :
  cell (grid grid_9x9_emptied) 0 = ∅
  ∧ ∀ fuel g', solve fuel grid_9x9_emptied ≠ Returned g'.
Proof.
  assert (cell (grid grid_9x9_emptied) 0 = ∅) as Hempty by by_evaluating_sides.
  split; [exact Hempty|].
  apply (solve_never_returns_with_empty_cell grid_9x9_emptied 0);
    [by_evaluation|exact Hempty].
Defined.

(** * Further properties of the code *)

(** ** What propagation leaves alone *)

Lemma narrows_resolved new old c v :
  narrows new old → cell old c = {[v]} → cell new c = {[v]}.
Proof.
  intros Hnar Hold. destruct (narrows_cell _ _ c Hnar) as [Hsub Hempty].
  rewrite Hold in Hsub, Hempty. apply set_eq. intros x. split; [apply Hsub|].
  intros Hx. apply elem_of_singleton in Hx as ->.
  destruct (decide (cell new c = ∅)) as [Hnil|Hnil].
  - apply Hempty in Hnil. exfalso.
    assert (v ∈ (∅ : gset Z)) by (rewrite <-Hnil; set_solver). set_solver.
  - apply set_choose_L in Hnil as [y Hy].
    pose proof (Hsub y Hy) as Hyv. apply elem_of_singleton in Hyv. by subst y.
Qed.

Lemma narrows_nonempty new old c :
  narrows new old → cell old c ≠ ∅ → cell new c ≠ ∅.
Proof. intros Hnar Hold Hnew. by apply (narrows_cell _ _ c Hnar) in Hnew. Qed.

(** [simplify()] is [reduce_options] run as many times as it counts passes. *)
Lemma simplify_loop_reduce_times fuel g opts g' k :
  simplify_loop fuel g opts = Some (g', k) → g' = reduce_times k g.
Proof.
  revert g opts g' k. induction fuel as [|fuel IH]; intros g opts g' k; [done|].
  cbn [simplify_loop]. case_decide.
  - by intros [= <- <-].
  - destruct (simplify_loop fuel _ _) as [[g1 k1]|] eqn:Hrun; [|done].
    cbn. intros [= <- <-]. apply IH in Hrun. rewrite Hrun.
    unfold reduce_times. by rewrite Nat.iter_succ_r.
Qed.

Lemma simplify_reduce_times g : simplify g = reduce_times (simplify_passes g) g.
Proof.
  destruct (simplify_loop_total (S (options g)) g) as (g' & k & Hrun & _); [lia|].
  unfold simplify, simplify_passes. rewrite Hrun.
  by apply simplify_loop_reduce_times in Hrun.
Qed.

Lemma reduce_options_grid_of m n segments g :
  grid_of m n segments g → grid_of m n segments (reduce_options g).
Proof.
  intros Hg. apply with_grid_grid_of; [done|].
  apply narrows_length, reduce_options_narrows.
Qed.

(** What one pass keeps for every grid of the program, every number of
    passes keeps, and so does [simplify()]. *)
Lemma reduce_times_invariant m n segments (P : SudokuGrid → Prop) g k :
  (∀ g, grid_of m n segments g → P g → P (reduce_options g)) →
  grid_of m n segments g → P g → P (reduce_times k g).
Proof.
  intros Hstep Hg HP. unfold reduce_times.
  assert (grid_of m n segments (Nat.iter k reduce_options g)
          ∧ P (Nat.iter k reduce_options g)) as [_ ?]; [|done].
  induction k as [|k [IHg IHP]]; [done|]. cbn [Nat.iter]. split.
  - by apply reduce_options_grid_of.
  - by apply Hstep.
Qed.

Lemma get_subset_range i v : v ∈ get_subset i → (1 ≤ v ≤ 9)%Z.
Proof.
  unfold get_subset. rewrite elem_of_list_to_set, list_elem_of_fmap.
  intros (k & -> & Hk). apply list_elem_of_filter in Hk as [_ Hk].
  apply elem_of_seq in Hk. lia.
Qed.

Lemma reduce_subset_keeps d area cs S c v :
  v ∉ S → v ∈ cell cs c → v ∈ cell (reduce_subset d area cs S) c.
Proof.
  intros HS Hv. rewrite reduce_subset_cell. case_decide; [|done].
  by apply elem_of_difference.
Qed.

Lemma reduce_areas_keeps d table family cs c v :
  Forall (λ entry : nat * gset Z, v ∉ entry.2) table →
  v ∈ cell cs c → v ∈ cell (foldl (reduce_area d table) cs family) c.
Proof.
  intros Htable. revert cs.
  induction family as [|area family IH]; intros cs Hv; cbn [foldl]; [done|].
  apply IH. unfold reduce_area. clear IH. revert cs Hv.
  induction Htable as [|entry table Hentry _ IH]; intros cs Hv; cbn [foldl]; [done|].
  apply IH. by apply reduce_subset_keeps.
Qed.

Lemma reduce_options_keeps_outside m n segments g c v :
  grid_of m n segments g → ¬ (1 ≤ v ≤ 9)%Z →
  v ∈ cell (grid g) c → v ∈ cell (grid (reduce_options g)) c.
Proof.
  intros Hg Hout Hv.
  destruct (grid_of_layout _ _ _ _ Hg) as (_ & _ & _ & Htable & _).
  apply reduce_areas_keeps; [|done]. rewrite Htable. unfold subset_table.
  apply Forall_fmap, list.Forall_forall. intros i _ Hin. cbn in Hin.
  by apply get_subset_range in Hin.
Qed.

(** The tables of the sides up to 4 hold no value of the grid. *)
Lemma small_tables_miss_values :
  Forall (λ s, Forall (λ entry : nat * gset Z, entry.2 ## prefix_set s)
                 (subset_table s))
    (seq 0 5).
Proof. by_evaluation. Qed.

Lemma values_prefix_set m n segments g :
  grid_of m n segments g → list_to_set (values g) = prefix_set (m * n).
Proof.
  intros Hg. destruct (grid_of_layout _ _ _ _ Hg) as (_ & _ & -> & _).
  unfold prefix_set, range. by rewrite Nat.add_sub.
Qed.

Lemma foldl_fixpoint {A B} (F : A → B → A) (l : list B) a :
  (∀ x, x ∈ l → F a x = a) → foldl F a l = a.
Proof.
  induction l as [|x l IH]; intros HF; cbn [foldl]; [done|].
  rewrite HF by (by left). apply IH. intros y Hy. apply HF. by right.
Qed.

Lemma reduce_options_small_side m n segments g :
  grid_of m n segments g → m * n ≤ 4 → candidates_in_range g →
  reduce_options g = g.
Proof.
  intros Hg Hmn Hrange.
  destruct (grid_of_layout _ _ _ _ Hg) as (_ & _ & _ & Htable & _).
  pose proof (values_prefix_set _ _ _ _ Hg) as Hvalues.
  pose proof small_tables_miss_values as Hsmall.
  rewrite list.Forall_forall in Hsmall.
  specialize (Hsmall (m * n)). rewrite list.Forall_forall in Hsmall.
  assert (m * n ∈ seq 0 5) as Hin by (apply elem_of_seq; lia).
  specialize (Hsmall Hin).
  assert (foldl (reduce_area (side g) (subsets g)) (grid g) (areas g) = grid g)
    as Hcells.
  { apply foldl_fixpoint. intros area _. unfold reduce_area.
    apply foldl_fixpoint. intros entry Hentry.
    apply cells_ext; [apply reduce_subset_length|].
    intros i. rewrite reduce_subset_cell. case_decide; [|done].
    rewrite Htable in Hentry. apply Hsmall in Hentry.
    pose proof (candidates_in_range_cells g Hrange i) as Hcell.
    rewrite Hvalues in Hcell. set_solver. }
  unfold reduce_options. rewrite Hcells. by destruct g.
Qed.

(** ** Board ingestion *)

Lemma place_some board g ij g' :
  place_entry board g ij = Some g' →
  g' = with_grid g (grid g') ∧ length (grid g') = length (grid g)
  ∧ ((board_entry board ij = Some None ∧ g' = g)
     ∨ ∃ v, board_entry board ij = Some (Some v) ∧ v ∈ values g
            ∧ flat_of g ij < length (grid g)
            ∧ grid g' = <[flat_of g ij := {[v]}]> (grid g)).
Proof.
  unfold place_entry, board_entry, flat_of.
  destruct (board !! ij.1 ≫= (.!! ij.2)) as [[v|]|]; [| |done].
  - case_decide; [|done]. intros Hset.
    apply set_values_grid in Hset as [Hlt ->]. cbn [with_grid grid].
    split_and!; [done|apply length_insert|]. right. by exists v.
  - intros [= <-]. split_and!; [by destruct g|done|by left].
Qed.

Lemma place_loop board l g g' :
  for_each (place_entry board) g l = Some g' →
  g' = with_grid g (grid g') ∧ length (grid g') = length (grid g)
  ∧ Forall (λ ij, ∃ e, board_entry board ij = Some e
                       ∧ ∀ v, e = Some v →
                              v ∈ values g ∧ flat_of g ij < length (grid g)) l
  ∧ (∀ k, cell (grid g') k = cell (grid g) k
          ∨ ∃ ij v, ij ∈ l ∧ flat_of g ij = k ∧ board_entry board ij = Some (Some v)
                    ∧ cell (grid g') k = {[v]})
  ∧ (∀ ij v, ij ∈ l → board_entry board ij = Some (Some v) →
             ∃ ij' v', ij' ∈ l ∧ flat_of g ij' = flat_of g ij
                       ∧ board_entry board ij' = Some (Some v')
                       ∧ cell (grid g') (flat_of g ij) = {[v']}).
Proof.
  revert g. induction l as [|ij l IH]; intros g; cbn [for_each].
  - intros [= <-]. split_and!; [by destruct g|done|constructor| |].
    + intros k. by left.
    + intros ij v Hin. by apply elem_of_nil in Hin.
  - destruct (place_entry board g ij) as [g1|] eqn:Hplace; [|done]. cbn. intros Hrest.
    apply place_some in Hplace as (Hlay1 & Hlen1 & Hcase).
    apply IH in Hrest as (Hlay & Hlen & Hall & Hcells & Hwritten).
    assert (side g1 = side g ∧ values g1 = values g) as [Hside Hvals]
      by (by rewrite Hlay1).
    assert (∀ ij, flat_of g1 ij = flat_of g ij) as Hflat
      by (intros ?; unfold flat_of; by rewrite Hside).
    split_and!.
    + rewrite Hlay, Hlay1. done.
    + by rewrite Hlen, Hlen1.
    + constructor.
      * destruct Hcase as [[He _]|(v & He & Hv & Hlt & _)].
        -- exists None. by split.
        -- exists (Some v). split; [done|]. by intros ? [= <-].
      * eapply list.Forall_impl; [exact Hall|]. intros ij' (e & He & Hv).
        exists e. split; [done|]. intros v Hev.
        rewrite <-Hvals, <-Hflat, <-Hlen1. by apply Hv.
    + intros k. destruct (Hcells k) as [Hsame|(ij' & v' & Hin & Hk & He & Hc)].
      * destruct Hcase as [[_ ->]|(v & He & _ & Hlt & Hgrid)]; [by left|].
        destruct (decide (flat_of g ij = k)) as [Hk|Hk].
        -- right. exists ij, v.
           split_and!; [apply elem_of_cons; by left|exact Hk|exact He|].
           rewrite Hsame, Hgrid, cell_insert. rewrite decide_True; [done|].
           by split.
        -- left. rewrite Hsame, Hgrid, cell_insert.
           rewrite decide_False; [done|tauto].
      * right. exists ij', v'. rewrite <-Hflat. split_and!; [by right|done..].
    + intros ij0 v0 Hin He0. apply elem_of_cons in Hin as [->|Hin].
      * destruct Hcase as [[He _]|(v & He & _ & Hlt & Hgrid)]; [congruence|].
        destruct (Hcells (flat_of g ij)) as [Hsame|(ij' & v' & Hin' & Hk & He' & Hc)].
        -- exists ij, v. split_and!; [by left|done|done|].
           rewrite Hsame, Hgrid, cell_insert. by rewrite decide_True.
        -- exists ij', v'. rewrite <-Hflat. split_and!; [by right|done..].
      * destruct (Hwritten ij0 v0 Hin He0) as (ij' & v' & Hin' & Hk & He' & Hc).
        exists ij', v'. rewrite <-!Hflat. split_and!; [by right|done..].
Qed.

Lemma place_loop_is_Some board l g :
  Forall (λ ij, ∃ e, board_entry board ij = Some e
                     ∧ ∀ v, e = Some v →
                            v ∈ values g ∧ flat_of g ij < length (grid g)) l →
  is_Some (for_each (place_entry board) g l).
Proof.
  intros Hall. revert g Hall.
  induction l as [|ij l IH]; intros g Hall; cbn [for_each]; [done|].
  apply list.Forall_cons in Hall as [(e & He & Hv) Hall].
  assert (∃ g1, place_entry board g ij = Some g1 ∧ g1 = with_grid g (grid g1)
                ∧ length (grid g1) = length (grid g)) as (g1 & -> & Hlay & Hlen).
  { unfold place_entry. unfold board_entry in He. rewrite He. destruct e as [v|].
    - destruct (Hv v eq_refl) as [Hin Hlt]. rewrite decide_True by done.
      unfold set_values, list_assign. unfold flat_of in Hlt.
      rewrite decide_True by done. cbn. eexists. split; [done|].
      cbn [with_grid grid]. by rewrite length_insert.
    - exists g. split_and!; [done|by destruct g|done]. }
  cbn. apply IH. eapply list.Forall_impl; [exact Hall|].
  intros ij' (e' & He' & Hv'). exists e'. split; [done|].
  intros v Hev. destruct (Hv' v Hev) as [Hin Hlt].
  assert (values g1 = values g ∧ side g1 = side g) as [Hvals Hside]
    by (by rewrite Hlay).
  unfold flat_of in *. by rewrite Hvals, Hside, Hlen.
Qed.

Lemma elem_of_index_pairs d ij :
  ij ∈ (i ← seq 0 d; j ← seq 0 d; [(i, j)]) ↔ ij.1 < d ∧ ij.2 < d.
Proof.
  rewrite list_elem_of_bind. split.
  - intros (i & Hin & Hi). apply list_elem_of_bind in Hin as (j & Hin & Hj).
    apply list_elem_of_singleton in Hin as ->.
    apply elem_of_seq in Hi, Hj. cbn [fst snd]. lia.
  - intros [Hi Hj]. exists ij.1. split; [|apply elem_of_seq; lia].
    apply list_elem_of_bind. exists ij.2. split; [|apply elem_of_seq; lia].
    apply list_elem_of_singleton. by destruct ij.
Qed.

Lemma flat_index_inj d i j i' j' :
  j < d → j' < d → i * d + j = i' * d + j' → i = i' ∧ j = j'.
Proof.
  intros Hj Hj' Heq.
  destruct (Nat.lt_trichotomy i i') as [Hlt|[->|Hlt]]; [nia|lia|nia].
Qed.

Lemma elem_of_values m n segments g v :
  grid_of m n segments g → v ∈ values g ↔ (1 ≤ v ≤ Z.of_nat (m * n))%Z.
Proof.
  intros Hg. rewrite <-elem_of_prefix_set, <-(values_prefix_set m n segments g Hg).
  by rewrite elem_of_list_to_set.
Qed.

Lemma SudokuGrid_init_fresh m n segments g :
  SudokuGrid_init m n segments = Some g →
  grid g = replicate ((m * n) ^ 2) (prefix_set (m * n)).
Proof.
  intros Hinit.
  assert (grid g = replicate ((m * n) ^ 2)
                     (list_to_set ((λ k, Z.of_nat k) <$> range 1 (m * n + 1))))
    as ->.
  { unfold SudokuGrid_init in Hinit.
    destruct segments as [[|s0 ss]|]; repeat case_decide; try done;
      by injection Hinit as <-. }
  unfold prefix_set, range. by rewrite Nat.add_sub.
Qed.

(** What [SudokuSolver(shape, board, segments)] leaves in its grid. *)
Lemma SudokuSolver_init_cells m n board segments g :
  SudokuSolver_init (m, n) board segments = Some g →
  grid_of m n segments g
  ∧ ∀ i j, i < m * n → j < m * n →
           cell (grid g) (i * (m * n) + j)
           = match board !! i ≫= (.!! j) with
             | Some (Some v) => {[v]}
             | _ => prefix_set (m * n)
             end.
Proof.
  unfold SudokuSolver_init. cbn [fst snd].
  repeat case_decide; try done.
  destruct (SudokuGrid_init m n segments) as [g0|] eqn:Hinit; [|done]. cbn.
  intros Hloop.
  pose proof (SudokuGrid_init_grid_of _ _ _ _ Hinit) as Hg0.
  pose proof (SudokuGrid_init_fresh _ _ _ _ Hinit) as Hfresh.
  destruct (grid_of_layout _ _ _ _ Hg0) as (Hside & Hlen0 & _).
  apply (place_loop board) in Hloop as (Hlay & Hlen & _ & Hcells & Hwritten).
  unfold board_entry, flat_of in Hcells, Hwritten.
  split.
  - rewrite Hlay. by apply with_grid_grid_of.
  - intros i j Hi Hj.
    assert (cell (grid g0) (i * (m * n) + j) = prefix_set (m * n)) as Hfull.
    { rewrite Hfresh. unfold cell.
      rewrite list_lookup_total_alt, lookup_replicate_2; [done|].
      rewrite Nat.pow_2_r. nia. }
    destruct (board !! i ≫= (.!! j)) as [[v|]|] eqn:He.
    + destruct (Hwritten (i, j) v) as (ij' & v' & Hin & Hk & He' & Hc).
      { apply elem_of_index_pairs. cbn. lia. }
      { done. }
      apply elem_of_index_pairs in Hin as [_ Hj']. rewrite Hside in Hk, Hc, Hj'.
      cbn [fst snd] in Hk, Hc.
      destruct (flat_index_inj _ _ _ _ _ Hj' Hj Hk) as [Hi1 Hj1].
      destruct ij' as [i' j']. cbn [fst snd] in *. subst i' j'.
      rewrite He in He'. injection He' as <-. done.
    + destruct (Hcells (i * (m * n) + j)) as [->|(ij' & v' & Hin & Hk & He' & _)];
        [done|].
      apply elem_of_index_pairs in Hin as [_ Hj']. rewrite Hside in Hk, Hj'.
      destruct (flat_index_inj _ _ _ _ _ Hj' Hj Hk) as [Hi1 Hj1].
      destruct ij' as [i' j']. cbn [fst snd] in *. subst i' j'. congruence.
    + destruct (Hcells (i * (m * n) + j)) as [->|(ij' & v' & Hin & Hk & He' & _)];
        [done|].
      apply elem_of_index_pairs in Hin as [_ Hj']. rewrite Hside in Hk, Hj'.
      destruct (flat_index_inj _ _ _ _ _ Hj' Hj Hk) as [Hi1 Hj1].
      destruct ij' as [i' j']. cbn [fst snd] in *. subst i' j'. congruence.
Qed.

Lemma board_entry_bounds (board : list (list (option Z))) d i j e :
  length board = d → Forall (λ b : list (option Z), length b = d) board →
  board !! i ≫= (.!! j) = Some e → i < d ∧ j < d.
Proof.
  intros Hrows Hcols He.
  destruct (board !! i) as [row|] eqn:Hrow; [|done]. cbn in He.
  pose proof (lookup_lt_Some _ _ _ Hrow) as Hi.
  pose proof (lookup_lt_Some _ _ _ He) as Hj.
  rewrite list.Forall_forall in Hcols.
  rewrite (Hcols row) in Hj by (by eapply list_elem_of_lookup_2). lia.
Qed.

Lemma board_entry_is_Some (board : list (list (option Z))) d i j :
  length board = d → Forall (λ b : list (option Z), length b = d) board →
  i < d → j < d → is_Some (board !! i ≫= (.!! j)).
Proof.
  intros Hrows Hcols Hi Hj.
  destruct (lookup_lt_is_Some_2 board i) as [row Hrow]; [lia|].
  rewrite Hrow. cbn. apply lookup_lt_is_Some_2.
  rewrite list.Forall_forall in Hcols.
  rewrite (Hcols row) by (by eapply list_elem_of_lookup_2). done.
Qed.

(** When the constructor of the solver goes through. *)
Lemma SudokuSolver_init_is_Some m n board segments :
  is_Some (SudokuSolver_init (m, n) board segments)
  ↔ length board = m * n
    ∧ Forall (λ b : list (option Z), length b = m * n) board
    ∧ is_Some (SudokuGrid_init m n segments)
    ∧ ∀ i j v, board !! i ≫= (.!! j) = Some (Some v) →
               (1 ≤ v ≤ Z.of_nat (m * n))%Z.
Proof.
  unfold SudokuSolver_init. cbn [fst snd]. split.
  - intros [g Hg]. repeat case_decide; try done.
    destruct (SudokuGrid_init m n segments) as [g0|] eqn:Hinit; [|done].
    cbn in Hg. split_and!; [done..|].
    pose proof (SudokuGrid_init_grid_of _ _ _ _ Hinit) as Hg0.
    destruct (grid_of_layout _ _ _ _ Hg0) as (Hside & _).
    apply (place_loop board) in Hg as (_ & _ & Hall & _).
    unfold board_entry, flat_of in Hall.
    rewrite list.Forall_forall in Hall.
    intros i j v He.
    destruct (board_entry_bounds board (m * n) i j _ ltac:(done) ltac:(done) He).
    destruct (Hall (i, j)) as (e & He' & Hv).
    { apply elem_of_index_pairs. cbn. lia. }
    cbn [fst snd] in He'. rewrite He in He'. injection He' as <-.
    destruct (Hv v eq_refl) as [Hin _].
    by apply (elem_of_values m n segments g0) in Hin.
  - intros (Hrows & Hcols & [g0 Hinit] & Hvals).
    rewrite !decide_True by done. rewrite Hinit. cbn.
    pose proof (SudokuGrid_init_grid_of _ _ _ _ Hinit) as Hg0.
    destruct (grid_of_layout _ _ _ _ Hg0) as (Hside & Hlen & _).
    apply (place_loop_is_Some board), list.Forall_forall. intros [i j] Hin.
    unfold board_entry, flat_of.
    apply elem_of_index_pairs in Hin as [Hi Hj]. cbn [fst snd] in *.
    rewrite Hside in Hi, Hj.
    destruct (board_entry_is_Some board (m * n) i j) as [e He]; [done..|].
    exists e. split; [done|]. intros v ->. split.
    + apply (elem_of_values m n segments g0); [done|]. by eapply Hvals.
    + rewrite Hside, Hlen, Nat.pow_2_r. nia.
Qed.

Lemma SudokuSolver_init_in_range m n board segments g :
  SudokuSolver_init (m, n) board segments = Some g → candidates_in_range g.
Proof.
  intros Hsolver.
  destruct (proj1 (SudokuSolver_init_is_Some m n board segments))
    as (Hrows & Hcols & _ & Hvals); [by eexists|].
  destruct (SudokuSolver_init_cells _ _ _ _ _ Hsolver) as [Hg Hcells].
  destruct (grid_of_layout _ _ _ _ Hg) as (_ & Hlen & _).
  pose proof (values_prefix_set _ _ _ _ Hg) as Hvalues.
  apply list.Forall_forall. intros x Hx.
  apply list_elem_of_lookup in Hx as [k Hk].
  pose proof (lookup_lt_Some _ _ _ Hk) as Hlt.
  apply cell_lookup in Hk. rewrite Hlen, Nat.pow_2_r in Hlt.
  assert (m * n ≠ 0) as Hpos by lia.
  assert (k = k / (m * n) * (m * n) + k mod (m * n)) as Hdecomp
    by (symmetry; apply flat_index).
  specialize (Hcells (k / (m * n)) (k mod (m * n))).
  rewrite <-Hdecomp, Hk in Hcells. rewrite Hvalues, Hcells.
  - destruct (board !! (k / (m * n)) ≫= _) as [[v|]|] eqn:He; [|done..].
    apply Hvals in He. intros y Hy. apply elem_of_singleton in Hy as ->.
    by apply elem_of_prefix_set.
  - apply Nat.Div0.div_lt_upper_bound. lia.
  - by apply Nat.mod_upper_bound.
Qed.

(** ** Validity and complete assignments *)

Lemma all_defined_cells g :
  forallb id (defined g) = true
  ↔ ∀ i, i < length (grid g) → size (cell (grid g) i) = 1.
Proof.
  unfold defined. split.
  - intros Hall i Hi.
    destruct (lookup_lt_is_Some_2 (grid g) i Hi) as [x Hx].
    rewrite (cell_lookup _ _ _ Hx). clear Hi.
    revert i Hx. induction (grid g) as [|y cs IH]; intros i Hx; [done|].
    cbn in Hall. apply andb_true_iff in Hall as [Hy Hcs].
    destruct i as [|i]; cbn in Hx.
    + injection Hx as <-. by apply bool_decide_eq_true in Hy.
    + by eapply IH.
  - intros Hall. induction (grid g) as [|y cs IH]; [done|].
    cbn. apply andb_true_iff. split.
    + apply bool_decide_eq_true. apply (Hall 0). cbn. lia.
    + apply IH. intros i Hi. apply (Hall (S i)). cbn. lia.
Qed.

Lemma complete_assignment_valid m n segments g f :
  grid_of m n segments g → candidates_in_range g → complete_assignment g f →
  is_valid g = true.
Proof.
  intros Hg Hrange [Hpick Hareas].
  rewrite list.Forall_forall in Hpick. rewrite list.Forall_forall in Hareas.
  destruct (is_valid g) eqn:Hvalid; [done|]. exfalso.
  unfold is_valid in Hvalid.
  apply forallb_false_iff in Hvalid as (area & Harea & Hbad).
  destruct (grid_of_area _ _ _ _ _ Hg Harea) as (_ & Hnodup & Hbound).
  assert (∀ i, i ∈ area → f i ∈ cell (grid g) i) as Hf.
  { intros i Hi. apply Hpick, elem_of_seq. specialize (Hbound i Hi). lia. }
  specialize (Hareas area Harea).
  apply validate_area_false in Hbad as [(v & Hv & Hmiss)|Hrep]; [| |done..].
  - rewrite list.Forall_forall in Hareas. specialize (Hareas v Hv).
    destruct (filter (λ i, f i = v) area) as [|i l] eqn:Hfilter; [done|].
    assert (i ∈ filter (λ i, f i = v) area) as Hi
      by (rewrite Hfilter; apply elem_of_cons; by left).
    apply list_elem_of_filter in Hi as [<- Hi].
    by apply (Hmiss i Hi), Hf.
  - destruct Hrep as (i & j & v & Hij & Hi & Hj & Hci & Hcj).
    apply Hij. apply (exactly_once_injective f area (values g)); [done| |done..|].
    + intros k Hk. eapply candidates_in_range_cell; [done|by apply Hf].
    + pose proof (Hf i Hi) as Hfi. pose proof (Hf j Hj) as Hfj.
      rewrite Hci in Hfi. rewrite Hcj in Hfj.
      apply elem_of_singleton in Hfi, Hfj. congruence.
Qed.

Lemma NoDup_all_equal (l : list nat) i :
  NoDup l → (∀ x, x ∈ l → x = i) → length l ≤ 1.
Proof.
  intros Hnodup Hall. destruct l as [|a [|b l]]; cbn; [lia..|]. exfalso.
  assert (a = i) as -> by (apply Hall; set_solver).
  assert (b = i) as -> by (apply Hall; set_solver).
  apply list.NoDup_cons in Hnodup as [Hnotin _]. set_solver.
Qed.

Lemma filter_all {A} (P : A → Prop) `{∀ x, Decision (P x)} (l : list A) :
  (∀ x, x ∈ l → P x) → filter P l = l.
Proof.
  induction l as [|a l IH]; intros Hall; [done|].
  rewrite filter_cons_True by (apply Hall; set_solver).
  f_equal. apply IH. intros x Hx. apply Hall. set_solver.
Qed.

Lemma filter_ext_on {A} (P Q : A → Prop)
    `{∀ x, Decision (P x)} `{∀ x, Decision (Q x)} (l : list A) :
  (∀ x, x ∈ l → P x ↔ Q x) → filter P l = filter Q l.
Proof.
  induction l as [|a l IH]; intros Hall; [done|].
  assert (filter P l = filter Q l) as Htail.
  { apply IH. intros x Hx. apply Hall. set_solver. }
  destruct (decide (P a)) as [Ha|Ha].
  - rewrite !filter_cons_True; [by f_equal| |done]. apply Hall; [set_solver|done].
  - rewrite !filter_cons_False; [done| |done].
    intros HQ. apply Ha, Hall; [set_solver|done].
Qed.

Lemma resolved_valid_assignment m n segments g :
  grid_of m n segments g → forallb id (defined g) = true →
  is_valid g = true →
  complete_assignment g (λ i, first_of (cell (grid g) i)).
Proof.
  intros Hg Hdefined Hvalid.
  rewrite all_defined_cells in Hdefined.
  assert (∀ i, i < length (grid g) →
               cell (grid g) i = {[first_of (cell (grid g) i)]}) as Hcell.
  { intros i Hi. by apply size_one_first_of, Hdefined. }
  split; apply list.Forall_forall.
  - intros i Hi. apply elem_of_seq in Hi.
    rewrite (Hcell i) at 2 by lia. by apply elem_of_singleton.
  - intros area Harea. apply list.Forall_forall. intros v Hv.
    destruct (grid_of_area _ _ _ _ _ Hg Harea) as (_ & Hnodup & Hbound).
    unfold is_valid in Hvalid.
    assert (validate_area g area = true) as Hok.
    { destruct (validate_area g area) eqn:Hbad; [done|].
      assert (forallb (validate_area g) (areas g) = false) as Hno
        by (apply forallb_false_iff; eauto).
      congruence. }
    unfold validate_area in Hok. apply andb_true_iff in Hok as [Hunion Hexact].
    apply bool_decide_eq_true in Hunion, Hexact.
    apply size_list_to_set_NoDup in Hexact.
    rewrite filter_all in Hexact.
    2:{ intros i Hi. apply defined_lookup. split; [by apply Hbound|].
        by apply Hdefined, Hbound. }
    assert (v ∈ (⋃ ((λ i, cell (grid g) i) <$> area) : gset Z)) as Hin
      by (rewrite Hunion; by apply elem_of_list_to_set).
    apply elem_of_union_list in Hin as (X & HX & HvX).
    apply list_elem_of_fmap in HX as (i & -> & Hi).
    rewrite (Hcell i) in HvX by (by apply Hbound).
    apply elem_of_singleton in HvX.
    apply Nat.le_antisymm.
    + apply (NoDup_all_equal _ i); [by apply list.NoDup_filter|].
      intros x Hx. apply list_elem_of_filter in Hx as [Hxv Hx].
      apply (NoDup_fmap_inj_on _ area Hexact); [done..|congruence].
    + assert (i ∈ filter (λ i, first_of (cell (grid g) i) = v) area) as Hmem
        by (apply list_elem_of_filter; split; [done|done]).
      destruct (filter _ area); [by apply elem_of_nil in Hmem|cbn; lia].
Qed.

Lemma simplify_resolved g :
  forallb id (defined g) = true → simplify g = g.
Proof.
  intros Hdefined. rewrite all_defined_cells in Hdefined.
  pose proof (simplify_narrows g) as Hnarrows.
  assert (grid (simplify g) = grid g) as Hgrid.
  { apply cells_ext; [by apply narrows_length|]. intros i.
    destruct (decide (i < length (grid g))) as [Hi|Hi].
    - pose proof (Hdefined i Hi) as Hone. apply size_one_first_of in Hone.
      rewrite Hone. by apply (narrows_resolved _ (grid g)).
    - rewrite !cell_ge; [done|lia|]. rewrite (narrows_length _ _ Hnarrows). lia. }
  rewrite simplify_layout, Hgrid. by destruct g.
Qed.

(** ** The lookahead loop *)

Lemma good_values_loop g idx (l : list Z) acc good :
  for_each (λ (good_set : gset Z) v,
      new_grid ← trial_grid g idx v;
      Some (if is_valid (simplify new_grid) then good_set ∪ {[v]} else good_set))
    acc l = Some good →
  ∀ v, v ∈ good
       ↔ v ∈ acc ∨ (v ∈ l ∧ ∃ t, trial_grid g idx v = Some t
                                  ∧ is_valid (simplify t) = true).
Proof.
  revert acc. induction l as [|w l IH]; intros acc Hrun v; cbn [for_each] in Hrun.
  - injection Hrun as <-. split; [by left|].
    intros [?|[Hin _]]; [done|by apply elem_of_nil in Hin].
  - destruct (trial_grid g idx w) as [t|] eqn:Ht; [|done]. cbn [mbind option_bind] in Hrun.
    rewrite (IH _ Hrun v), elem_of_cons.
    destruct (is_valid (simplify t)) eqn:Hvalid.
    + rewrite elem_of_union, elem_of_singleton. split.
      * intros [[?| ->]|[? ?]];
          [by left|right; split; [by left|eauto]|right; split; [by right|done]].
      * intros [?|[[ -> |?] Hex]]; [by left; left|left; by right|by right].
    + split.
      * intros [?|[? ?]]; [by left|right; split; [by right|done]].
      * intros [?|[[ -> |?] Hex]]; [by left| |by right].
        destruct Hex as (t' & Ht' & Hv'). rewrite Ht in Ht'.
        injection Ht' as <-. congruence.
Qed.

Lemma good_values_spec g idx good :
  good_values g idx = Some good →
  ∀ v, v ∈ good
       ↔ v ∈ cell (grid g) idx
         ∧ ∃ t, trial_grid g idx v = Some t ∧ is_valid (simplify t) = true.
Proof.
  intros Hrun v. rewrite (good_values_loop _ _ _ _ _ Hrun v), elem_of_elements.
  split; [intros [Hin|Hin]; [by apply elem_of_empty in Hin|done]|by right].
Qed.

Lemma with_grid_id g : with_grid g (grid g) = g.
Proof. by destruct g. Qed.

Lemma solve_cell_spec g idx g' :
  solve_cell g idx = Some g' →
  g' = g
  ∨ ∃ good, idx < length (grid g) ∧ size (cell (grid g) idx) ≠ 1
            ∧ good_values g idx = Some good
            ∧ g' = simplify (with_grid g (<[idx := good]> (grid g))).
Proof.
  unfold solve_cell. intros Hrun. case_decide as Hdef; [|left; congruence].
  right. destruct (good_values g idx) as [good|] eqn:Hgood; [|done]. cbn [mbind option_bind] in Hrun.
  destruct (set_values g (idx / side g) (idx mod side g) good) as [g1|] eqn:Hset;
    [|done].
  cbn [mbind option_bind] in Hrun. injection Hrun as <-.
  apply set_values_grid in Hset as [Hlt ->]. rewrite flat_index in *.
  exists good. split_and!; [done| |done..].
  unfold defined in Hdef. rewrite list_lookup_fmap, (lookup_cell _ _ Hlt) in Hdef.
  cbn in Hdef. injection Hdef as Hdef. by apply bool_decide_eq_false in Hdef.
Qed.

Lemma solve_cell_shrinks g idx g' :
  solve_cell g idx = Some g' →
  g' = with_grid g (grid g') ∧ length (grid g') = length (grid g)
  ∧ ∀ i, cell (grid g') i ⊆ cell (grid g) i.
Proof.
  intros Hrun.
  apply solve_cell_spec in Hrun as [->|(good & Hlt & _ & Hgood & ->)].
  - by rewrite with_grid_id.
  - pose proof (simplify_narrows (with_grid g (<[idx := good]> (grid g)))) as Hn.
    split_and!.
    + by rewrite (simplify_layout (with_grid g _)) at 1.
    + rewrite (narrows_length _ _ Hn). cbn [grid with_grid].
      by rewrite length_insert.
    + intros i. destruct (narrows_cell _ _ i Hn) as [Hsub _].
      etrans; [exact Hsub|]. cbn [grid with_grid]. rewrite cell_insert.
      case_decide as Hi; [|done]. destruct Hi as [<- _].
      intros v Hv. by apply (good_values_spec _ _ _ Hgood) in Hv as [? _].
Qed.

Lemma solve_cell_fixpoint g idx g' :
  solve_cell g idx = Some g' → reduce_options g = g → reduce_options g' = g'.
Proof.
  intros Hrun Hfix.
  apply solve_cell_spec in Hrun as [->|(good & _ & _ & _ & ->)];
    [done|apply simplify_fixpoint].
Qed.

Lemma for_each_invariant {S A} (body : S → A → option S) (P : S → Prop) l s s' :
  (∀ s x s', P s → body s x = Some s' → P s') →
  P s → for_each body s l = Some s' → P s'.
Proof.
  intros Hstep. revert s. induction l as [|x l IH]; intros s HP Hrun;
    cbn [for_each] in Hrun.
  - by injection Hrun as <-.
  - destruct (body s x) as [s1|] eqn:Hbody; [|done]. cbn [mbind option_bind] in Hrun. eauto.
Qed.

Lemma solve_loop_invariant (P : SudokuGrid → Prop) fuel g g' :
  (∀ g idx g', P g → solve_cell g idx = Some g' → P g') →
  P g → solve_loop fuel g = Returned g' →
  P g' ∧ forallb id (defined g') = true.
Proof.
  intros Hstep. revert g. induction fuel as [|fuel IH]; intros g HP Hrun;
    cbn [solve_loop] in Hrun;
    destruct (forallb id (defined g)) eqn:Hdefined; try done.
  - by injection Hrun as <-.
  - by injection Hrun as <-.
  - destruct (solve_cells g (seq 0 (length (grid g)))) as [g1|] eqn:Hpass; [|done].
    apply (IH g1); [|done].
    by apply (for_each_invariant solve_cell P
                (seq 0 (length (grid g))) g g1 Hstep).
Qed.

Lemma solve_loop_result m n segments g0 fuel g g' :
  grid_of m n segments g → reduce_options g = g →
  (∀ i, cell (grid g) i ⊆ cell (grid g0) i) →
  solve_loop fuel g = Returned g' →
  (grid_of m n segments g' ∧ reduce_options g' = g'
   ∧ ∀ i, cell (grid g') i ⊆ cell (grid g0) i)
  ∧ forallb id (defined g') = true.
Proof.
  intros Hg Hfix Hsub.
  apply (solve_loop_invariant
           (λ h, grid_of m n segments h ∧ reduce_options h = h
                 ∧ ∀ i, cell (grid h) i ⊆ cell (grid g0) i)); [|done].
  intros h idx h' (Hh & Hhfix & Hhsub) Hcell.
  destruct (solve_cell_shrinks _ _ _ Hcell) as (Hlayout & Hlen & Hshrink).
  split_and!.
  - rewrite Hlayout. by apply with_grid_grid_of.
  - by apply (solve_cell_fixpoint h idx).
  - intros i. etrans; [apply Hshrink|apply Hhsub].
Qed.

Lemma solve_loop_not_raised m n segments g fuel :
  grid_of m n segments g → m * n ≤ 9 → solve_loop fuel g ≠ Raised.
Proof.
  revert g. induction fuel as [|fuel IH]; intros g Hg Hmn; cbn [solve_loop];
    destruct (forallb id (defined g)); try done.
  destruct (solve_cells_some m n segments g (seq 0 (length (grid g))) Hg Hmn)
    as (g' & -> & Hg').
  { apply list.Forall_forall. intros i Hi. apply elem_of_seq in Hi. lia. }
  by apply IH.
Qed.

(** ** The lookahead on the standard 9×9 grid *)

Lemma complete_assignment_pick g f i :
  complete_assignment g f → i < length (grid g) → f i ∈ cell (grid g) i.
Proof.
  intros [Hpick _] Hi. rewrite list.Forall_forall in Hpick.
  apply Hpick, elem_of_seq. lia.
Qed.

Lemma narrows_in_range g g' :
  narrows (grid g') (grid g) → values g' = values g →
  candidates_in_range g → candidates_in_range g'.
Proof.
  intros Hn Hvals Hrange. apply list.Forall_forall. intros x Hx.
  apply list_elem_of_lookup in Hx as [i Hi]. apply cell_lookup in Hi as <-.
  rewrite Hvals. destruct (narrows_cell _ _ i Hn) as [Hsub _].
  etrans; [done|]. by apply candidates_in_range_cells.
Qed.

Lemma reduce_options_keeps_complete m n segments g f :
  grid_of m n segments g →
  candidates_in_range g ∧ complete_assignment g f →
  candidates_in_range (reduce_options g)
  ∧ complete_assignment (reduce_options g) f.
Proof.
  intros Hg [Hrange Hf]. split.
  - by apply (narrows_in_range g); [apply reduce_options_narrows|..].
  - pose proof (reduce_options_keeps_assignment _ _ _ _ _ Hg Hrange Hf) as Hpick.
    destruct Hf as [_ Hareas]. split; [|done].
    apply list.Forall_forall. intros i Hi. apply elem_of_seq in Hi. apply Hpick.
    rewrite (narrows_length _ _ (reduce_options_narrows g)) in Hi. lia.
Qed.

Lemma simplify_keeps_complete m n segments g f :
  grid_of m n segments g → candidates_in_range g → complete_assignment g f →
  candidates_in_range (simplify g) ∧ complete_assignment (simplify g) f.
Proof.
  intros Hg Hrange Hf. rewrite simplify_reduce_times.
  apply (reduce_times_invariant m n segments
           (λ h, candidates_in_range h ∧ complete_assignment h f)); [|done..].
  intros h Hh. by apply (reduce_options_keeps_complete m n segments).
Qed.

Lemma assign_keeps_complete m n segments g f idx (X : gset Z) :
  grid_of m n segments g → candidates_in_range g → complete_assignment g f →
  idx < length (grid g) → f idx ∈ X → X ⊆ cell (grid g) idx →
  grid_of m n segments (with_grid g (<[idx := X]> (grid g)))
  ∧ candidates_in_range (with_grid g (<[idx := X]> (grid g)))
  ∧ complete_assignment (with_grid g (<[idx := X]> (grid g))) f.
Proof.
  intros Hg Hrange [Hpick Hareas] Hidx HfX HX. split_and!.
  - apply with_grid_grid_of; [done|by rewrite length_insert].
  - unfold candidates_in_range. cbn [grid values with_grid].
    apply list.Forall_forall. intros x Hx.
    apply list_elem_of_lookup in Hx as [i Hi]. apply cell_lookup in Hi as <-.
    rewrite cell_insert. case_decide as Hc.
    + destruct Hc as [<- _]. etrans; [exact HX|].
      by apply candidates_in_range_cells.
    + by apply candidates_in_range_cells.
  - split; [|done]. cbn [grid with_grid]. rewrite length_insert.
    rewrite list.Forall_forall in Hpick.
    apply list.Forall_forall. intros i Hi. rewrite cell_insert.
    case_decide as Hc; [by destruct Hc as [<- _]|by apply Hpick].
Qed.

Lemma trial_of_solution_valid g f idx :
  grid_of 3 3 None g → candidates_in_range g → complete_assignment g f →
  idx < length (grid g) →
  ∃ t, trial_grid g idx (f idx) = Some t ∧ is_valid (simplify t) = true.
Proof.
  intros Hg Hrange Hf Hidx.
  destruct (grid_of_layout _ _ _ _ Hg) as (_ & Hlen & _).
  pose proof (complete_assignment_pick _ _ _ Hf Hidx) as Hpick.
  eexists. split.
  { apply trial_grid_clone_9x9; [done|]. by rewrite Hlen in Hidx. }
  destruct (assign_keeps_complete 3 3 None g f idx {[f idx]})
    as (Hg1 & Hr1 & Hf1); [done..|by apply elem_of_singleton| |].
  { intros v Hv. by apply elem_of_singleton in Hv as ->. }
  destruct (simplify_keeps_complete 3 3 None _ f Hg1 Hr1 Hf1) as [Hr2 Hf2].
  apply (complete_assignment_valid 3 3 None _ f);
    [by apply simplify_grid_of|done..].
Qed.

Lemma solve_cell_keeps_solution g f idx g' :
  grid_of 3 3 None g ∧ candidates_in_range g ∧ complete_assignment g f →
  solve_cell g idx = Some g' →
  grid_of 3 3 None g' ∧ candidates_in_range g' ∧ complete_assignment g' f.
Proof.
  intros (Hg & Hrange & Hf) Hrun.
  apply solve_cell_spec in Hrun as [->|(good & Hlt & _ & Hgood & ->)]; [done|].
  destruct (assign_keeps_complete 3 3 None g f idx good)
    as (Hg1 & Hr1 & Hf1); [done..| | |].
  - apply (good_values_spec _ _ _ Hgood). split.
    + by apply complete_assignment_pick.
    + by apply trial_of_solution_valid.
  - intros v Hv. by apply (good_values_spec _ _ _ Hgood) in Hv as [? _].
  - destruct (simplify_keeps_complete 3 3 None _ f Hg1 Hr1 Hf1).
    split_and!; [by apply simplify_grid_of|done..].
Qed.

Lemma solve_9x9_returned g f fuel g' :
  grid_of 3 3 None g → candidates_in_range g → complete_assignment g f →
  solve fuel g = Returned g' →
  grid_of 3 3 None g' ∧ ∀ i, i < 81 → cell (grid g') i = {[f i]}.
Proof.
  intros Hg Hrange Hf Hrun. unfold solve in Hrun.
  destruct (simplify_keeps_complete 3 3 None g f Hg Hrange Hf) as [Hr1 Hf1].
  apply (solve_loop_invariant
           (λ h, grid_of 3 3 None h ∧ candidates_in_range h
                 ∧ complete_assignment h f)) in Hrun
    as [(Hg' & Hr' & Hf') Hdefined].
  - split; [done|]. intros i Hi.
    destruct (grid_of_layout _ _ _ _ Hg') as (_ & Hlen & _).
    assert (i < length (grid g')) as Hi' by (by rewrite Hlen).
    rewrite all_defined_cells in Hdefined.
    pose proof (Hdefined i Hi') as Hone. apply size_one_first_of in Hone.
    pose proof (complete_assignment_pick _ _ _ Hf' Hi') as Hpick.
    rewrite Hone in Hpick. apply elem_of_singleton in Hpick.
    by rewrite Hone, Hpick.
  - intros h idx h'. apply solve_cell_keeps_solution.
  - split_and!; [by apply simplify_grid_of|done..].
Qed.

(** ** Grids with more than 81 cells *)

Lemma for_each_app {S A} (body : S → A → option S) (l1 l2 : list A) s :
  for_each body s (l1 ++ l2) = s' ← for_each body s l1; for_each body s' l2.
Proof.
  revert s. induction l1 as [|x l1 IH]; intros s; [done|].
  rewrite <-app_comm_cons. cbn [for_each].
  destruct (body s x) as [s1|]; [|done].
  cbn [mbind option_bind]. apply IH.
Qed.

Lemma copy_cells_none live fresh :
  length fresh < length live → copy_cells live fresh = None.
Proof.
  intros Hlt. unfold copy_cells.
  replace (length live)
    with (length fresh + S (length live - S (length fresh))) by lia.
  rewrite seq_app, for_each_app.
  destruct (copy_loop_some live (length fresh) 0 fresh)
    as (cs' & -> & Hlen & _); [lia|].
  cbn [mbind option_bind seq for_each]. unfold list_assign.
  rewrite decide_False by (rewrite Hlen; lia). done.
Qed.

Lemma trial_grid_none g idx v : 81 < length (grid g) → trial_grid g idx v = None.
Proof.
  intros Hlen. unfold trial_grid. rewrite SudokuGrid_init_default.
  cbn [mbind option_bind grid]. rewrite copy_cells_none; [done|].
  rewrite length_replicate. exact Hlen.
Qed.

Lemma good_values_none g idx :
  81 < length (grid g) → cell (grid g) idx ≠ ∅ → good_values g idx = None.
Proof.
  intros Hlen Hne. unfold good_values.
  destruct (elements (cell (grid g) idx)) as [|v l] eqn:Hel.
  - apply elements_empty_inv, leibniz_equiv in Hel. done.
  - cbn [for_each]. by rewrite trial_grid_none.
Qed.

Lemma solve_cell_raises g idx :
  81 < length (grid g) → idx < length (grid g) →
  1 < size (cell (grid g) idx) → solve_cell g idx = None.
Proof.
  intros Hlen Hidx Hsize. unfold solve_cell. rewrite decide_True.
  - rewrite good_values_none; [done|done|].
    intros Hempty. rewrite Hempty, size_empty in Hsize. lia.
  - unfold defined. rewrite list_lookup_fmap, (lookup_cell _ _ Hidx).
    cbn [fmap option_fmap option_map]. f_equal. apply bool_decide_eq_false. lia.
Qed.

Lemma solve_cell_skips g idx :
  reduce_options g = g → idx < length (grid g) →
  size (cell (grid g) idx) ≤ 1 → solve_cell g idx = Some g.
Proof.
  intros Hfix Hidx Hsize. unfold solve_cell. case_decide as Hdef; [|done].
  unfold defined in Hdef.
  rewrite list_lookup_fmap, (lookup_cell _ _ Hidx) in Hdef.
  cbn [fmap option_fmap option_map] in Hdef. injection Hdef as Hdef.
  apply bool_decide_eq_false in Hdef.
  assert (cell (grid g) idx = ∅) as Hempty
    by (apply leibniz_equiv, size_empty_inv; lia).
  rewrite good_values_empty by done. cbn [mbind option_bind].
  unfold set_values. rewrite flat_index, list_assign_some by done.
  cbn [fmap option_fmap option_map].
  rewrite list_insert_id by (by rewrite lookup_cell, Hempty).
  rewrite with_grid_id. cbn [mbind option_bind].
  by rewrite simplify_of_fixpoint.
Qed.

Lemma solve_cells_raises g l c :
  81 < length (grid g) → reduce_options g = g →
  (∀ idx, idx ∈ l → idx < length (grid g)) →
  c ∈ l → 1 < size (cell (grid g) c) → solve_cells g l = None.
Proof.
  intros Hlen Hfix. unfold solve_cells.
  induction l as [|idx l IH]; intros Hbound Hc Hsize.
  - by apply elem_of_nil in Hc.
  - cbn [for_each].
    destruct (decide (1 < size (cell (grid g) idx))) as [Hbig|Hsmall].
    + rewrite solve_cell_raises; [done..|apply Hbound; set_solver|done].
    + rewrite solve_cell_skips; [|done|apply Hbound; set_solver|lia].
      cbn [mbind option_bind]. apply IH; [|by set_solver|done].
      intros i Hi. apply Hbound. set_solver.
Qed.

Lemma solve_raises m n segments g c fuel :
  grid_of m n segments g → 9 < m * n →
  1 < size (cell (grid (simplify g)) c) →
  solve (S fuel) g = Raised.
Proof.
  intros Hg Hmn Hsize. unfold solve.
  pose proof (simplify_grid_of _ _ _ _ Hg) as Hg1.
  destruct (grid_of_layout _ _ _ _ Hg1) as (_ & Hlen & _).
  assert (81 < length (grid (simplify g))) as Hbig
    by (rewrite Hlen, Nat.pow_2_r; nia).
  assert (c < length (grid (simplify g))) as Hc.
  { destruct (decide (c < length (grid (simplify g)))); [done|].
    rewrite cell_ge, size_empty in Hsize; lia. }
  cbn [solve_loop].
  destruct (forallb id (defined (simplify g))) eqn:Hdefined.
  { rewrite all_defined_cells in Hdefined. specialize (Hdefined c Hc). lia. }
  rewrite (solve_cells_raises _ _ c); [done|done|apply simplify_fixpoint|..].
  - intros idx Hidx. apply elem_of_seq in Hidx. lia.
  - apply elem_of_seq. lia.
  - done.
Qed.

(** ** The subset table, entry by entry *)

Lemma get_subset_bits_upto_511 :
  Forall (λ i, get_subset i
               = list_to_set
                   (filter (λ v, Z.testbit (Z.of_nat i) (9 - v) = true)
                      (Z.of_nat <$> seq 1 9)))
    (seq 0 512).
Proof. by_evaluation. Qed.

Lemma bin_digits_bound p : Pos.to_nat p < 2 ^ length (bin_digits p).
Proof.
  induction p as [q IH|q IH|]; cbn [bin_digits].
  - rewrite length_app, Nat.add_1_r, Nat.pow_succ_r', Pos2Nat.inj_xI. lia.
  - rewrite length_app, Nat.add_1_r, Nat.pow_succ_r', Pos2Nat.inj_xO. lia.
  - cbn. lia.
Qed.

Lemma bin_digits_long p : 256 ≤ Pos.to_nat p → 9 ≤ length (bin_digits p).
Proof.
  intros Hp. pose proof (bin_digits_bound p) as Hb.
  destruct (decide (9 ≤ length (bin_digits p))); [done|]. exfalso.
  assert (2 ^ length (bin_digits p) ≤ 2 ^ 8)
    by (apply Nat.pow_le_mono_r; lia).
  assert (2 ^ 8 = 256) as Hpow by reflexivity. lia.
Qed.

Lemma format_9b_wide i k :
  512 ≤ i → k < 9 → format_9b i !! k = format_9b (i / 2) !! k.
Proof.
  intros Hi Hk. unfold format_9b.
  rewrite <-Nat.div2_div, Nat2N.inj_div2.
  destruct (N.of_nat i) as [|p] eqn:Hp; [lia|].
  assert (Pos.to_nat p = i) as Hpi by lia.
  destruct p as [q|q|]; cbn [N.div2 bin_digits].
  - rewrite Pos2Nat.inj_xI in Hpi.
    pose proof (bin_digits_long q ltac:(lia)) as Hlong.
    replace (9 - length (bin_digits q ++ ["1"%char])) with 0
      by (rewrite length_app; cbn [length]; lia).
    replace (9 - length (bin_digits q)) with 0 by lia.
    cbn [replicate app]. by rewrite lookup_app_l by lia.
  - rewrite Pos2Nat.inj_xO in Hpi.
    pose proof (bin_digits_long q ltac:(lia)) as Hlong.
    replace (9 - length (bin_digits q ++ ["0"%char])) with 0
      by (rewrite length_app; cbn [length]; lia).
    replace (9 - length (bin_digits q)) with 0 by lia.
    cbn [replicate app]. by rewrite lookup_app_l by lia.
  - lia.
Qed.

(** ** The passes of [simplify] *)

Lemma reduce_times_shift k g :
  reduce_times k (reduce_options g) = reduce_times (S k) g.
Proof. unfold reduce_times. symmetry. apply Nat.iter_succ_r. Qed.

Lemma simplify_loop_passes fuel g g' k :
  simplify_loop fuel g (options g) = Some (g', k) →
  1 ≤ k ∧ g' = reduce_times k g
  ∧ reduce_times k g = reduce_times (k - 1) g
  ∧ ∀ j, j < k - 1 →
         options (reduce_times (S j) g) ≠ options (reduce_times j g).
Proof.
  revert g k. induction fuel as [|fuel IH]; intros g k Hrun; [done|].
  cbn [simplify_loop] in Hrun. case_decide as Hsame.
  - injection Hrun as <- <-. split_and!; [lia|done| |intros; lia].
    by apply reduce_options_fixpoint.
  - destruct (simplify_loop fuel (reduce_options g) (options (reduce_options g)))
      as [[g1 k1]|] eqn:Hrec; [|done].
    cbn [fmap option_fmap option_map prod_map fst snd id] in Hrun.
    injection Hrun as <- <-.
    destruct (IH _ _ Hrec) as (Hk1 & Hg1 & Hlast & Hbefore).
    rewrite !reduce_times_shift in Hlast. rewrite reduce_times_shift in Hg1.
    split_and!; [lia|done| |].
    + by replace (S k1 - 1) with (S (k1 - 1)) by lia.
    + intros [|j] Hj; [exact Hsame|].
      rewrite <-(reduce_times_shift (S j) g), <-(reduce_times_shift j g).
      apply Hbefore. lia.
Qed.

(** ** The solver on set objects *)

Lemma alloc_spec h X r h' :
  alloc h X = (r, h') → h !! r = None ∧ h' = <[r := X]> h.
Proof.
  unfold alloc. intros [= <- <-]. split; [|done].
  apply not_elem_of_dom, is_fresh.
Qed.

Lemma view_ext h h' rs :
  Forall (λ r, deref h' r = deref h r) rs → view h' rs = view h rs.
Proof.
  intros Hall. unfold view. induction Hall as [|r rs Hr _ IH]; [done|].
  cbn [fmap list_fmap]. by rewrite Hr, IH.
Qed.

Lemma view_weaken h h' rs :
  Forall (λ r, is_Some (h !! r)) rs → h ⊆ h' → view h' rs = view h rs.
Proof.
  intros Hall Hsub. apply view_ext. eapply list.Forall_impl; [exact Hall|].
  intros r [x Hx]. unfold deref. by rewrite Hx, (lookup_weaken _ _ _ _ Hx Hsub).
Qed.

(** Storing a new object in cell [j] changes cell [j] alone and keeps the
    cells apart. *)
Lemma unshared_assign_fresh h rs r X j :
  unshared h rs → h !! r = None → j < length rs →
  unshared (<[r := X]> h) (<[j := r]> rs)
  ∧ view (<[r := X]> h) (<[j := r]> rs) = <[j := X]> (view h rs).
Proof.
  intros [Hnodup Hall] Hr Hj. rewrite list.Forall_forall in Hall.
  assert (∀ i, rs !! i ≠ Some r) as Hfresh.
  { intros i Hi. destruct (Hall r) as [x Hx];
      [by eapply list_elem_of_lookup_2|congruence]. }
  split; [split|].
  - apply NoDup_alt. intros i i' x Hi Hi'.
    apply list_lookup_insert_Some in Hi as [(<- & <- & _)|[Hne Hi]];
      apply list_lookup_insert_Some in Hi' as [(<- & Hx & _)|[Hne' Hi']];
      try done.
    + by destruct (Hfresh i').
    + subst x. by destruct (Hfresh i).
    + by eapply NoDup_lookup.
  - apply list.Forall_forall. intros x Hx.
    apply list_elem_of_lookup in Hx as [i Hi]. apply lookup_insert_is_Some'.
    apply list_lookup_insert_Some in Hi as [(_ & <- & _)|[_ Hi]]; [by left|].
    right. apply Hall. by eapply list_elem_of_lookup_2.
  - apply list_eq. intros i. unfold view.
    destruct (decide (j = i)) as [->|Hne].
    + rewrite list_lookup_fmap, !list_lookup_insert_eq
        by (by rewrite ?length_fmap).
      cbn [fmap option_fmap option_map]. by rewrite deref_insert, decide_True.
    + rewrite list_lookup_fmap, !list_lookup_insert_ne, list_lookup_fmap by done.
      destruct (rs !! i) as [r'|] eqn:Hi; [|done].
      cbn [fmap option_fmap option_map]. rewrite deref_insert, decide_False; [done|].
      intros ->. by destruct (Hfresh i).
Qed.

Lemma unshared_grows h h' rs :
  unshared h rs → (∀ r, is_Some (h !! r) → is_Some (h' !! r)) → unshared h' rs.
Proof.
  intros [Hnodup Hall] Hkeep. split; [done|].
  eapply list.Forall_impl; [exact Hall|]. intros r. apply Hkeep.
Qed.

(** The in-place changes keep every object in the store. *)
Lemma foldl_keeps {A} (F : Store → A → Store) (l : list A) h r :
  (∀ h x, is_Some (h !! r) → is_Some (F h x !! r)) →
  is_Some (h !! r) → is_Some (foldl F h l !! r).
Proof.
  intros HF. revert h. induction l as [|x l IH]; intros h Hr; [done|].
  cbn [foldl]. by apply IH, HF.
Qed.

Lemma reduce_options_obj_keeps o h r :
  is_Some (h !! r) → is_Some (reduce_options_obj o h !! r).
Proof.
  unfold reduce_options_obj. apply foldl_keeps. intros h1 area.
  unfold reduce_area_obj. apply foldl_keeps. intros h2 entry.
  unfold reduce_subset_obj. case_decide; [|done].
  unfold remove_from_obj. apply foldl_keeps. intros h3 j Hr.
  destruct (refs o !! j); [|done]. apply lookup_insert_is_Some'. by right.
Qed.

Lemma simplify_loop_obj_keeps fuel o h opts h' r :
  simplify_loop_obj fuel o h opts = Some h' →
  is_Some (h !! r) → is_Some (h' !! r).
Proof.
  revert h opts. induction fuel as [|fuel IH]; intros h opts Hrun Hr; [done|].
  cbn [simplify_loop_obj] in Hrun. case_decide.
  - injection Hrun as <-. by apply reduce_options_obj_keeps.
  - eapply IH; [exact Hrun|]. by apply reduce_options_obj_keeps.
Qed.

Lemma simplify_obj_keeps o h r :
  is_Some (h !! r) → is_Some (simplify_obj o h !! r).
Proof.
  intros Hr. unfold simplify_obj.
  destruct (simplify_loop_obj _ o h _) as [h'|] eqn:Hrun; [|done].
  by eapply simplify_loop_obj_keeps.
Qed.

(** An in-place change only removes values, with or without sharing, so
    the loop of [simplify] reaches its [break] within the fuel given. *)
Lemma foldl_shrinks {A} (F : Store → A → Store) (l : list A) h r :
  (∀ h x, deref (F h x) r ⊆ deref h r) → deref (foldl F h l) r ⊆ deref h r.
Proof.
  intros HF. revert h. induction l as [|x l IH]; intros h; [done|].
  cbn [foldl]. etrans; [apply IH|apply HF].
Qed.

Lemma reduce_options_obj_shrinks o h r :
  deref (reduce_options_obj o h) r ⊆ deref h r.
Proof.
  unfold reduce_options_obj. apply foldl_shrinks. intros h1 area.
  unfold reduce_area_obj. apply foldl_shrinks. intros h2 entry.
  unfold reduce_subset_obj. case_decide; [|done].
  unfold remove_from_obj. apply foldl_shrinks. intros h3 j.
  destruct (refs o !! j) as [r'|]; [|done]. rewrite deref_insert.
  case_decide as Hr; [subst; set_solver|done].
Qed.

Lemma options_obj_le o h :
  options (snapshot (reduce_options_obj o h) o) ≤ options (snapshot h o).
Proof.
  unfold options, snapshot, view. cbn [grid with_grid].
  induction (refs o) as [|r rs IH]; [done|]. csimpl.
  pose proof (subseteq_size _ _ (reduce_options_obj_shrinks o h r)). lia.
Qed.

Lemma simplify_loop_obj_total fuel o h :
  options (snapshot h o) < fuel →
  is_Some (simplify_loop_obj fuel o h (options (snapshot h o))).
Proof.
  revert h. induction fuel as [|fuel IH]; intros h Hfuel; [lia|].
  cbn [simplify_loop_obj]. case_decide as Hsame; [done|].
  apply IH. pose proof (options_obj_le o h). lia.
Qed.

(** On unshared cells [simplify] is the value-level function. *)
Lemma simplify_loop_obj_view fuel o h opts :
  NoDup (refs o) →
  fst <$> simplify_loop fuel (snapshot h o) opts
  = (λ h', snapshot h' o) <$> simplify_loop_obj fuel o h opts.
Proof.
  intros Hnodup. revert h opts. induction fuel as [|fuel IH]; intros h opts;
    [done|].
  cbn [simplify_loop simplify_loop_obj].
  rewrite <-(reduce_options_obj_view o h Hnodup). case_decide; [done|].
  rewrite <-IH.
  by destruct (simplify_loop fuel _ _) as [[g' k]|].
Qed.

Lemma simplify_obj_view o h :
  NoDup (refs o) → snapshot (simplify_obj o h) o = simplify (snapshot h o).
Proof.
  intros Hnodup. unfold simplify, simplify_obj.
  pose proof (simplify_loop_obj_view (S (options (snapshot h o))) o h
                (options (snapshot h o)) Hnodup) as Hrun.
  destruct (simplify_loop _ (snapshot h o) _) as [[g' k]|];
    destruct (simplify_loop_obj _ o h _) as [h'|]; try done.
  cbn in Hrun. by injection Hrun as ->.
Qed.

Lemma simplify_obj_unshared o h :
  unshared h (refs o) → unshared (simplify_obj o h) (refs o).
Proof.
  intros Hun. eapply unshared_grows; [exact Hun|].
  intros r. apply simplify_obj_keeps.
Qed.

Lemma view_replicate h rs X :
  Forall (λ r, h !! r = Some X) rs → view h rs = replicate (length rs) X.
Proof.
  intros Hall. unfold view. induction Hall as [|r rs Hr _ IH]; [done|].
  cbn [fmap list_fmap length replicate]. unfold deref at 1. by rewrite Hr, IH.
Qed.

(** The constructor gives every cell an object of its own. *)
Lemma alloc_cells_spec h X k rs h' :
  alloc_cells h X k = (rs, h') →
  length rs = k ∧ NoDup rs
  ∧ Forall (λ r, h !! r = None ∧ h' !! r = Some X) rs
  ∧ h ⊆ h'.
Proof.
  revert h rs h'. induction k as [|k IH]; intros h rs h'; cbn [alloc_cells].
  - intros [= <- <-]. split_and!; [done|constructor|constructor|done].
  - destruct (alloc h X) as [r h1] eqn:Halloc.
    destruct (alloc_cells h1 X k) as [rs1 h2] eqn:Hrest. intros [= <- <-].
    apply alloc_spec in Halloc as [Hr ->].
    destruct (IH _ _ _ Hrest) as (Hlen & Hnodup & Hall & Hsub).
    assert (h ⊆ <[r := X]> h) as Hsub1 by (by apply insert_subseteq).
    rewrite list.Forall_forall in Hall. split_and!.
    + cbn. by rewrite Hlen.
    + apply list.NoDup_cons. split; [|done]. intros Hin.
      destruct (Hall r Hin) as [Hnone _]. by rewrite lookup_insert_eq in Hnone.
    + constructor.
      * split; [done|]. eapply lookup_weaken; [|exact Hsub].
        apply lookup_insert_eq.
      * apply list.Forall_forall. intros r' Hin.
        destruct (Hall r' Hin) as [Hnone Hsome]. split; [|done].
        by eapply lookup_weaken_None.
    + by etrans.
Qed.

Lemma SudokuGrid_init_obj_spec h m n segments o h' :
  SudokuGrid_init_obj h m n segments = Some (o, h') →
  SudokuGrid_init m n segments = Some (frame o)
  ∧ snapshot h' o = frame o
  ∧ unshared h' (refs o)
  ∧ h ⊆ h'.
Proof.
  unfold SudokuGrid_init_obj.
  destruct (SudokuGrid_init m n segments) as [g|] eqn:Hinit; [|done].
  cbn [mbind option_bind].
  destruct (alloc_cells h (list_to_set (values g)) (length (grid g)))
    as [rs h1] eqn:Halloc.
  intros [= <- <-]. cbn [frame refs].
  apply alloc_cells_spec in Halloc as (Hlen & Hnodup & Hall & Hsub).
  split_and!; [done| |split; [done|]|done].
  - unfold snapshot. cbn [frame refs]. rewrite <-(with_grid_id g) at 2.
    f_equal.
    pose proof (SudokuGrid_init_grid_of _ _ _ _ Hinit) as Hg.
    rewrite (view_replicate _ _ (list_to_set (values g)))
      by (eapply list.Forall_impl; [exact Hall|]; by intros r [_ ?]).
    rewrite Hlen, (SudokuGrid_init_fresh _ _ _ _ Hinit), length_replicate.
    by rewrite (values_prefix_set _ _ _ _ Hg).
  - eapply list.Forall_impl; [exact Hall|]. by intros r [_ ->].
Qed.

Lemma SudokuGrid_init_obj_None h m n segments :
  SudokuGrid_init_obj h m n segments = None ↔ SudokuGrid_init m n segments = None.
Proof.
  unfold SudokuGrid_init_obj. destruct (SudokuGrid_init m n segments) as [g|];
    cbn [mbind option_bind]; [|done].
  by destruct (alloc_cells h _ _).
Qed.


Lemma for_each_sim {S1 S2 A} (R : S1 → S2 → Prop)
    (body1 : S1 → A → option S1) (body2 : S2 → A → option S2) l s1 s2 :
  (∀ s1 s2 x, R s1 s2 → option_Forall2 R (body1 s1 x) (body2 s2 x)) →
  R s1 s2 → option_Forall2 R (for_each body1 s1 l) (for_each body2 s2 l).
Proof.
  intros Hstep. revert s1 s2.
  induction l as [|x l IH]; intros s1 s2 HR; cbn [for_each].
  - by constructor.
  - destruct (Hstep s1 s2 x HR) as [t1 t2 Ht|]; cbn [mbind option_bind];
      [by apply IH|constructor].
Qed.

Lemma for_each_ext {S A} (body1 body2 : S → A → option S) l s :
  (∀ s x, body1 s x = body2 s x) → for_each body1 s l = for_each body2 s l.
Proof.
  intros Hext. revert s. induction l as [|x l IH]; intros s; [done|].
  cbn [for_each]. rewrite Hext. destruct (body2 s x); [apply IH|done].
Qed.

(** [set_values] with a set that no cell holds yet. *)
Lemma set_values_obj_fresh o h row col X r h' :
  unshared h (refs o) → alloc h X = (r, h') →
  match set_values_obj o row col r with
  | Some o' =>
      set_values (snapshot h o) row col X = Some (snapshot h' o')
      ∧ unshared h' (refs o')
  | None => set_values (snapshot h o) row col X = None
  end.
Proof.
  intros Hun Halloc. apply alloc_spec in Halloc as [Hr ->].
  unfold set_values_obj, set_values, list_assign.
  change (side (snapshot h o)) with (side (frame o)).
  change (grid (snapshot h o)) with (view h (refs o)).
  rewrite view_length.
  case_decide as Hlt; cbn [fmap option_fmap option_map]; [|done].
  destruct (unshared_assign_fresh _ _ _ X _ Hun Hr Hlt) as [Hun' Hview].
  split; [|done]. unfold snapshot. cbn [frame refs]. by rewrite Hview.
Qed.

Lemma copy_cells_obj_view h0 live h rs :
  Forall (λ r, is_Some (h0 !! r)) live → h0 ⊆ h → unshared h rs →
  option_Forall2
    (λ (st : list nat * Store) cs,
       view st.2 st.1 = cs ∧ unshared st.2 st.1 ∧ h0 ⊆ st.2)
    (copy_cells_obj h live rs) (copy_cells (view h0 live) (view h rs)).
Proof.
  intros Hlive Hsub Hun. unfold copy_cells_obj, copy_cells. rewrite view_length.
  apply for_each_sim; [|done].
  intros [rs1 h1] cs i (<- & Hun1 & Hsub1). cbn [fst snd].
  destruct (alloc h1 (cell (view h1 live) i)) as [r h2] eqn:Halloc.
  apply alloc_spec in Halloc as [Hr ->].
  rewrite (view_weaken h0 h1 live) by done.
  unfold list_assign. rewrite view_length.
  case_decide as Hlt; cbn [fmap option_fmap option_map]; constructor.
  destruct (unshared_assign_fresh _ _ _ (cell (view h0 live) i) _ Hun1 Hr Hlt)
    as [Hun2 Hview].
  cbn [fst snd]. split_and!; [done|done|].
  etrans; [done|by apply insert_subseteq].
Qed.

(** The trial grid is made of new objects only: it is the trial grid of
    the value level, whatever the sharing in the live grid. *)
Lemma trial_grid_obj_view h o idx v :
  Forall (λ r, is_Some (h !! r)) (refs o) →
  option_Forall2 is_grid
    (trial_grid_obj h o idx v) (trial_grid (snapshot h o) idx v).
Proof.
  intros Hlive. unfold trial_grid_obj, trial_grid.
  destruct (SudokuGrid_init_obj h 3 3 None) as [[o1 h1]|] eqn:Hnew.
  2:{ apply SudokuGrid_init_obj_None in Hnew. rewrite Hnew. constructor. }
  apply SudokuGrid_init_obj_spec in Hnew as (Hinit & Hsnap & Hun & Hsub).
  rewrite Hinit. cbn [mbind option_bind fst snd].
  change (grid (snapshot h o)) with (view h (refs o)).
  change (side (snapshot h o)) with (side (frame o)).
  assert (grid (frame o1) = view h1 (refs o1)) as ->
    by (rewrite <-Hsnap at 1; reflexivity).
  destruct (copy_cells_obj_view h (refs o) h1 (refs o1) Hlive Hsub Hun)
    as [[rs2 h2] cs (<- & Hun2 & Hsub2)|]; cbn [mbind option_bind fst snd];
    [|constructor].
  destruct (alloc h2 {[v]}) as [r h3] eqn:Halloc.
  pose proof (set_values_obj_fresh (mkObjGrid (frame o1) rs2) h2
                (idx / side (frame o)) (idx mod side (frame o))
                {[v]} r h3 Hun2 Halloc) as Hset.
  change (snapshot h2 (mkObjGrid (frame o1) rs2))
    with (with_grid (frame o1) (view h2 rs2)) in Hset.
  destruct (set_values_obj (mkObjGrid (frame o1) rs2) _ _ r) as [t|];
    cbn [fmap option_fmap option_map].
  - destruct Hset as [-> Hun3]. constructor. by split.
  - rewrite Hset. constructor.
Qed.

Lemma good_values_obj_view h o idx :
  Forall (λ r, is_Some (h !! r)) (refs o) →
  good_values_obj h o idx = good_values (snapshot h o) idx.
Proof.
  intros Hlive. unfold good_values_obj, good_values.
  change (grid (snapshot h o)) with (view h (refs o)).
  apply for_each_ext. intros good v.
  destruct (trial_grid_obj_view h o idx v Hlive) as [[t ht] t' [<- Hun]|];
    cbn [mbind option_bind fst snd]; [|done].
  by rewrite simplify_obj_view by apply Hun.
Qed.

Lemma solve_cell_obj_view st g idx :
  is_grid st g → option_Forall2 is_grid (solve_cell_obj st idx) (solve_cell g idx).
Proof.
  destruct st as [o h]. intros [<- Hun]. unfold solve_cell_obj, solve_cell.
  cbn [fst snd] in *. case_decide; [|by constructor].
  rewrite good_values_obj_view by apply Hun.
  destruct (good_values (snapshot h o) idx) as [good|];
    cbn [mbind option_bind]; [|constructor].
  destruct (alloc h good) as [r h1] eqn:Halloc.
  change (side (snapshot h o)) with (side (frame o)).
  pose proof (set_values_obj_fresh o h (idx / side (frame o))
                (idx mod side (frame o)) good r h1 Hun Halloc) as Hset.
  destruct (set_values_obj o _ _ r) as [o'|]; cbn [mbind option_bind].
  - destruct Hset as [-> Hun1]. cbn [mbind option_bind]. constructor.
    split; cbn [fst snd].
    + by apply simplify_obj_view, Hun1.
    + by apply simplify_obj_unshared.
  - rewrite Hset. constructor.
Qed.

Lemma solve_loop_obj_view fuel o h :
  unshared h (refs o) →
  outcome_view (solve_loop_obj fuel o h) = solve_loop fuel (snapshot h o).
Proof.
  revert o h. induction fuel as [|fuel IH]; intros o h Hun;
    cbn [solve_loop_obj solve_loop];
    destruct (forallb id (defined (snapshot h o))); try done.
  unfold solve_cells. change (grid (snapshot h o)) with (view h (refs o)).
  rewrite view_length.
  destruct (for_each_sim is_grid solve_cell_obj solve_cell
              (seq 0 (length (refs o))) (o, h) (snapshot h o))
    as [[o' h'] g' [<- Hun']|]; [|by split| |done].
  - intros st g idx HR. by apply solve_cell_obj_view.
  - cbn [fst snd] in *. by apply IH.
Qed.

(** On a grid in which no two cells hold one set object, [solve] is the
    value-level function. *)
Lemma solve_obj_view fuel o h :
  unshared h (refs o) →
  outcome_view (solve_obj fuel o h) = solve fuel (snapshot h o).
Proof.
  intros Hun. unfold solve_obj, solve.
  rewrite solve_loop_obj_view by (by apply simplify_obj_unshared).
  by rewrite simplify_obj_view by apply Hun.
Qed.

(** The solver's own grid: every cell holds an object of its own. *)
Lemma SudokuSolver_init_obj_view h shape board segments :
  option_Forall2 is_grid
    (SudokuSolver_init_obj h shape board segments)
    (SudokuSolver_init shape board segments).
Proof.
  unfold SudokuSolver_init_obj, SudokuSolver_init.
  repeat case_decide; try constructor.
  destruct (SudokuGrid_init_obj h shape.1 shape.2 segments) as [[o1 h1]|]
    eqn:Hnew.
  2:{ apply SudokuGrid_init_obj_None in Hnew. rewrite Hnew. constructor. }
  apply SudokuGrid_init_obj_spec in Hnew as (Hinit & Hsnap & Hun & Hsub).
  rewrite Hinit. cbn [mbind option_bind fst snd].
  apply for_each_sim; [|by split].
  intros [o2 h2] g ij [<- Hun2]. cbn [fst snd] in *.
  change (values (snapshot h2 o2)) with (values (frame o2)).
  destruct (board !! ij.1 ≫= (.!! ij.2)) as [[val|]|];
    [|by constructor|constructor].
  case_decide; [|constructor].
  destruct (alloc h2 {[val]}) as [r h3] eqn:Halloc.
  pose proof (set_values_obj_fresh o2 h2 ij.1 ij.2 {[val]} r h3 Hun2 Halloc)
    as Hset.
  destruct (set_values_obj o2 ij.1 ij.2 r) as [o3|];
    cbn [fmap option_fmap option_map].
  - destruct Hset as [-> Hun3]. constructor. by split.
  - rewrite Hset. constructor.
Qed.

Lemma solver_objects h m n board segments o h' :
  SudokuSolver_init_obj h (m, n) board segments = Some (o, h') →
  SudokuSolver_init (m, n) board segments = Some (snapshot h' o)
  ∧ unshared h' (refs o).
Proof.
  intros Hobj.
  pose proof (SudokuSolver_init_obj_view h (m, n) board segments) as Hview.
  rewrite Hobj in Hview. inversion Hview as [st g [Hsnap Hun] Hst Hg|].
  cbn [fst snd] in *. by rewrite Hsnap.
Qed.

(** ** One pass as the rule of the specification *)





(** ** The concrete grids *)

Lemma SudokuSolver_init_grid_of m n board segments g :
  SudokuSolver_init (m, n) board segments = Some g → grid_of m n segments g.
Proof. intros Hg. by destruct (SudokuSolver_init_cells _ _ _ _ _ Hg). Qed.

Lemma built_by_default {A} (d : A) (o : option A) :
  is_Some o → o = Some (default d o).
Proof. by intros [x ->]. Qed.

Lemma two_members_size (X : gset Z) (a b : Z) :
  a ≠ b → a ∈ X → b ∈ X → 1 < size X.
Proof.
  intros Hab Ha Hb.
  assert (size ({[a; b]} : gset Z) ≤ size X) as Hle
    by (apply subseteq_size; set_solver).
  rewrite size_union, !size_singleton in Hle by set_solver. lia.
Qed.

Lemma grid_main_1_built :
  SudokuSolver_init (3, 3) board_main_1 None = Some grid_main_1.
Proof. apply built_by_default. by_evaluation. Qed.

Lemma grid_4x4_one_built :
  SudokuSolver_init (2, 2) board_4x4_one None = Some grid_4x4_one.
Proof. apply built_by_default. by_evaluation. Qed.

Lemma grid_4x4_solved_built :
  SudokuSolver_init (2, 2) board_4x4_solved None = Some grid_4x4_solved.
Proof. apply built_by_default. by_evaluation. Qed.

Lemma grid_4x4_ones_built :
  SudokuSolver_init (2, 2) (replicate 4 (replicate 4 (Some 1%Z))) None
  = Some grid_4x4_ones.
Proof. apply built_by_default. by_evaluation. Qed.

Lemma grid_10x10_blank_built :
  SudokuGrid_init 5 2 None = Some grid_10x10_blank.
Proof. apply built_by_default. by_evaluation. Qed.

Lemma solution_main_1_fills_board :
  complete_assignment grid_main_1 solution_main_1.
Proof. by_evaluation. Qed.

Lemma grid_11x11_blank_built :
  SudokuGrid_init 11 1 None = Some grid_11x11_blank.
Proof. apply built_by_default. by_evaluation. Qed.

Lemma simplify_keeps_outside m n segments g c v :
  grid_of m n segments g → ¬ (1 ≤ v ≤ 9)%Z →
  v ∈ cell (grid g) c → v ∈ cell (grid (simplify g)) c.
Proof.
  intros Hg Hv Hin. rewrite simplify_reduce_times.
  apply (reduce_times_invariant m n segments (λ h, v ∈ cell (grid h) c));
    [|done..].
  intros h Hh. by apply (reduce_options_keeps_outside m n segments).
Qed.

Lemma grid_11x11_blank_stays_open :
  1 < size (cell (grid (simplify grid_11x11_blank)) 0).
Proof.
  pose proof (SudokuGrid_init_grid_of _ _ _ _ grid_11x11_blank_built) as Hg.
  apply (two_members_size _ 10%Z 11%Z); [done|..];
    apply (simplify_keeps_outside 11 1 None); [done|lia| |done|lia|];
    by_evaluation.
Qed.


Lemma objects_main_2_built :
  SudokuSolver_init_obj ∅ (3, 3) board_main_2 None
  = Some (objects_main_2.1, objects_main_2.2).
Proof. rewrite <-surjective_pairing. apply built_by_default. by_evaluation. Qed.

Lemma solution_main_2_fills_objects :
  complete_assignment (snapshot objects_main_2.2 objects_main_2.1)
    solution_main_2.
Proof. by_evaluation. Qed.

Lemma objects_9x9_blank_built :
  SudokuSolver_init_obj ∅ (3, 3) board_9x9_blank None
  = Some (objects_9x9_blank.1, objects_9x9_blank.2).
Proof. rewrite <-surjective_pairing. apply built_by_default. by_evaluation. Qed.

Lemma solver_objects_grid h m n board segments o h' :
  SudokuSolver_init_obj h (m, n) board segments = Some (o, h') →
  unshared h' (refs o)
  ∧ grid_of m n segments (snapshot h' o)
  ∧ candidates_in_range (snapshot h' o).
Proof.
  intros Hobj. apply solver_objects in Hobj as [Hinit Hun].
  split_and!; [done| |].
  - by eapply SudokuSolver_init_grid_of.
  - by eapply SudokuSolver_init_in_range.
Qed.

Lemma solution_main_1_fills_objects :
  complete_assignment (snapshot objects_main_1.2 objects_main_1.1)
    solution_main_1.
Proof. by_evaluation. Qed.

Lemma solution_main_1_fills_blank_objects :
  complete_assignment (snapshot objects_9x9_blank.2 objects_9x9_blank.1)
    solution_main_1.
Proof. by_evaluation. Qed.

Lemma solution_main_2_fills_blank_objects :
  complete_assignment (snapshot objects_9x9_blank.2 objects_9x9_blank.1)
    solution_main_2.
Proof. by_evaluation. Qed.

(** * Further properties, stated *)

(** X1. [SudokuSolver.__init__]: when the constructor goes through, the
    grid it holds is a grid object of the given shape and segments, every
    candidate set lies within [{1..side}], and the cell at row [i], column
    [j] is [{v}] where the board gives the value [v] and the full set
    [{1..side}] where it gives ['.']. *)
Theorem solver_ingests_board m n board segments g :
  SudokuSolver_init (m, n) board segments = Some g →
  grid_of m n segments g
  ∧ candidates_in_range g
  ∧ ∀ i j, i < m * n → j < m * n →
           cell (grid g) (i * (m * n) + j)
           = match board !! i ≫= (.!! j) with
             | Some (Some v) => {[v]}
             | _ => prefix_set (m * n)
             end.
Proof.
  intros Hg. destruct (SudokuSolver_init_cells _ _ _ _ _ Hg) as [Hgrid Hcells].
  split_and!; [done| |done]. by eapply SudokuSolver_init_in_range.
Qed.

Lemma solver_ingests_board_witness :
  grid_of 3 3 None grid_main_1
  ∧ candidates_in_range grid_main_1
  ∧ ∀ i j, i < 3 * 3 → j < 3 * 3 →
           cell (grid grid_main_1) (i * (3 * 3) + j)
           = match board_main_1 !! i ≫= (.!! j) with
             | Some (Some v) => {[v]}
             | _ => prefix_set (3 * 3)
             end.
Proof.
  exact (solver_ingests_board 3 3 board_main_1 None grid_main_1 grid_main_1_built).
Defined.

(** X2. [SudokuSolver.__init__] goes through exactly when the board has
    [m * n] rows of [m * n] entries each, the grid constructor accepts the
    shape and the segments, and every given value lies in [{1..m * n}]. *)
Theorem solver_constructor_accepts_iff m n board segments :
  is_Some (SudokuSolver_init (m, n) board segments)
  ↔ length board = m * n
    ∧ Forall (λ b : list (option Z), length b = m * n) board
    ∧ is_Some (SudokuGrid_init m n segments)
    ∧ ∀ i j v, board !! i ≫= (.!! j) = Some (Some v) →
               (1 ≤ v ≤ Z.of_nat (m * n))%Z.
Proof. apply SudokuSolver_init_is_Some. Qed.

(** X4. Propagation keeps cells alive: on a grid object of the program,
    neither [reduce_options] nor [simplify] removes the last candidate of a
    cell, and a resolved cell keeps its value. *)
Theorem propagation_keeps_cells_alive m n segments g c :
  grid_of m n segments g → cell (grid g) c ≠ ∅ →
  (cell (grid (reduce_options g)) c ≠ ∅ ∧ cell (grid (simplify g)) c ≠ ∅)
  ∧ ∀ v, cell (grid g) c = {[v]} →
         cell (grid (reduce_options g)) c = {[v]}
         ∧ cell (grid (simplify g)) c = {[v]}.
Proof.
  intros _ Hne. split; [split|intros v Hv; split].
  - by apply (narrows_nonempty _ (grid g)); [apply reduce_options_narrows|].
  - by apply (narrows_nonempty _ (grid g)); [apply simplify_narrows|].
  - by apply (narrows_resolved _ (grid g)); [apply reduce_options_narrows|].
  - by apply (narrows_resolved _ (grid g)); [apply simplify_narrows|].
Qed.

Lemma propagation_keeps_cells_alive_witness :
  (cell (grid (reduce_options grid_main_1)) 0 ≠ ∅
   ∧ cell (grid (simplify grid_main_1)) 0 ≠ ∅)
  ∧ ∀ v, cell (grid grid_main_1) 0 = {[v]} →
         cell (grid (reduce_options grid_main_1)) 0 = {[v]}
         ∧ cell (grid (simplify grid_main_1)) 0 = {[v]}.
Proof.
  apply (propagation_keeps_cells_alive 3 3 None grid_main_1 0).
  - exact (SudokuSolver_init_grid_of _ _ _ _ _ grid_main_1_built).
  - by_evaluation.
Defined.

(** X5. The subset table only ever holds values from 1 to 9, whatever the
    side: on a grid object of the program, a candidate outside [{1..9}]
    (the value 10 on a grid of side 10, say) is never removed by
    [reduce_options] or by [simplify]. *)
Theorem propagation_keeps_values_outside_1_to_9 m n segments g c v :
  grid_of m n segments g → ¬ (1 ≤ v ≤ 9)%Z → v ∈ cell (grid g) c →
  v ∈ cell (grid (reduce_options g)) c ∧ v ∈ cell (grid (simplify g)) c.
Proof.
  intros Hg Hv Hin. split.
  - by apply (reduce_options_keeps_outside m n segments).
  - by apply (simplify_keeps_outside m n segments).
Qed.

Lemma propagation_keeps_values_outside_1_to_9_witness :
  10%Z ∈ cell (grid (reduce_options grid_10x10_blank)) 0
  ∧ 10%Z ∈ cell (grid (simplify grid_10x10_blank)) 0.
Proof.
  apply (propagation_keeps_values_outside_1_to_9 5 2 None).
  - exact (SudokuGrid_init_grid_of _ _ _ _ grid_10x10_blank_built).
  - lia.
  - by_evaluation.
Defined.

(** X6. On a grid object of side at most 4 whose candidate sets lie within
    [{1..side}], propagation does nothing: [reduce_options] and [simplify]
    both leave the grid as it is (the subset table of such a grid only
    holds values from 6 to 9). *)
Theorem propagation_is_idle_up_to_side_4 m n segments g :
  grid_of m n segments g → m * n ≤ 4 → candidates_in_range g →
  reduce_options g = g ∧ simplify g = g.
Proof.
  intros Hg Hmn Hrange.
  assert (reduce_options g = g) as Hfix
    by (by apply (reduce_options_small_side m n segments)).
  split; [done|by apply simplify_of_fixpoint].
Qed.

Lemma propagation_is_idle_up_to_side_4_witness :
  reduce_options grid_4x4_one = grid_4x4_one
  ∧ simplify grid_4x4_one = grid_4x4_one.
Proof.
  apply (propagation_is_idle_up_to_side_4 2 2 None).
  - exact (SudokuSolver_init_grid_of _ _ _ _ _ grid_4x4_one_built).
  - cbn. lia.
  - exact (SudokuSolver_init_in_range _ _ _ _ _ grid_4x4_one_built).
Defined.

(** X7. [is_valid] never rejects a grid that can still be completed: on a
    grid object of the program whose candidate sets lie within
    [{1..side}], if some complete assignment is consistent with the
    candidates then [is_valid] is [True]. *)
Theorem is_valid_accepts_solvable_grid m n segments g f :
  grid_of m n segments g → candidates_in_range g → complete_assignment g f →
  is_valid g = true.
Proof. apply complete_assignment_valid. Qed.

Lemma is_valid_accepts_solvable_grid_witness : is_valid grid_main_1 = true.
Proof.
  apply (is_valid_accepts_solvable_grid 3 3 None grid_main_1 solution_main_1).
  - exact (SudokuSolver_init_grid_of _ _ _ _ _ grid_main_1_built).
  - exact (SudokuSolver_init_in_range _ _ _ _ _ grid_main_1_built).
  - exact solution_main_1_fills_board.
Defined.

(** X8. On a grid object of the program in which every cell is resolved
    (and holds a value of [{1..side}]), [is_valid] is [True] exactly when
    the values of the cells form a complete assignment: every value of
    [{1..side}] exactly once in every row, column and region. *)
Theorem resolved_grid_valid_iff_solved m n segments g :
  grid_of m n segments g → candidates_in_range g →
  forallb id (defined g) = true →
  is_valid g = true
  ↔ complete_assignment g (λ i, first_of (cell (grid g) i)).
Proof.
  intros Hg Hrange Hdefined. split.
  - by apply (resolved_valid_assignment m n segments).
  - by apply (complete_assignment_valid m n segments).
Qed.

Lemma resolved_grid_valid_iff_solved_witness :
  is_valid grid_4x4_solved = true
  ↔ complete_assignment grid_4x4_solved
      (λ i, first_of (cell (grid grid_4x4_solved) i)).
Proof.
  apply (resolved_grid_valid_iff_solved 2 2 None).
  - exact (SudokuSolver_init_grid_of _ _ _ _ _ grid_4x4_solved_built).
  - exact (SudokuSolver_init_in_range _ _ _ _ _ grid_4x4_solved_built).
  - by_evaluating_sides.
Defined.

(** X9. [solve()] never checks the board it is given: on a grid object in
    which every cell is already resolved it returns at once, without a
    single pass of its loop, and leaves the grid as it is, valid or not. *)
Theorem solve_returns_resolved_grid_unchanged m n segments g fuel :
  grid_of m n segments g → forallb id (defined g) = true →
  solve fuel g = Returned g.
Proof.
  intros _ Hdefined. unfold solve. rewrite simplify_resolved by done.
  destruct fuel; cbn [solve_loop]; by rewrite Hdefined.
Qed.

Lemma solve_returns_resolved_grid_unchanged_witness :
  solve 0 grid_4x4_ones = Returned grid_4x4_ones.
Proof.
  apply (solve_returns_resolved_grid_unchanged 2 2 None).
  - exact (SudokuSolver_init_grid_of _ _ _ _ _ grid_4x4_ones_built).
  - by_evaluating_sides.
Defined.

(** X10. What [solve()] returns, when it returns: a grid object of the same
    shape and segments in which every cell is resolved, with each value
    taken from the candidates the cell had at the start (so the given cells
    keep their values), and which [reduce_options] leaves unchanged. *)
Theorem solve_result_is_resolved_fixpoint m n segments g fuel :
  grid_of m n segments g →
  match solve fuel g with
  | Returned g' =>
      grid_of m n segments g'
      ∧ (∀ i, i < length (grid g') → size (cell (grid g') i) = 1)
      ∧ (∀ i, cell (grid g') i ⊆ cell (grid g) i)
      ∧ (∀ i v, cell (grid g) i = {[v]} → cell (grid g') i = {[v]})
      ∧ reduce_options g' = g'
  | _ => True
  end.
Proof.
  intros Hg. destruct (solve fuel g) as [g'| |] eqn:Hrun; [|done..].
  unfold solve in Hrun.
  apply (solve_loop_result m n segments g) in Hrun
    as [(Hg' & Hfix & Hsub) Hdefined];
    [|by apply simplify_grid_of|apply simplify_fixpoint
     |intros i; by apply narrows_cell, simplify_narrows].
  rewrite all_defined_cells in Hdefined. split_and!; [done..| |done].
  intros i v Hi.
  assert (i < length (grid g')) as Hlt.
  { destruct (grid_of_layout _ _ _ _ Hg) as (_ & Hlen & _).
    destruct (grid_of_layout _ _ _ _ Hg') as (_ & Hlen' & _).
    rewrite Hlen', <-Hlen. destruct (decide (i < length (grid g))); [done|].
    rewrite cell_ge in Hi by lia. apply (f_equal size) in Hi.
    by rewrite size_empty, size_singleton in Hi. }
  pose proof (Hdefined i Hlt) as Hone. apply size_one_first_of in Hone.
  pose proof (Hsub i) as Hs. rewrite Hi, Hone in Hs. rewrite Hone.
  assert (first_of (cell (grid g') i) ∈ ({[v]} : gset Z)) as Hin
    by (apply Hs; by apply elem_of_singleton).
  apply elem_of_singleton in Hin. by rewrite Hin.
Qed.

Lemma solve_result_is_resolved_fixpoint_witness :
  match solve 1 grid_main_1 with
  | Returned g' =>
      grid_of 3 3 None g'
      ∧ (∀ i, i < length (grid g') → size (cell (grid g') i) = 1)
      ∧ (∀ i, cell (grid g') i ⊆ cell (grid grid_main_1) i)
      ∧ (∀ i v, cell (grid grid_main_1) i = {[v]} → cell (grid g') i = {[v]})
      ∧ reduce_options g' = g'
  | _ => True
  end.
Proof.
  apply (solve_result_is_resolved_fixpoint 3 3 None grid_main_1 1).
  exact (SudokuSolver_init_grid_of _ _ _ _ _ grid_main_1_built).
Defined.

(** X11. On the standard 9×9 grid (shape (3, 3), default blocks) in which
    no two cells hold one set object, as in every grid that
    [SudokuSolver] builds, the lookahead never discards a solution: if a
    complete assignment [f] is consistent with the candidates and these
    lie within [{1..9}], then [solve()] does not raise, and if it returns,
    the grid it leaves is [f] cell by cell. *)
Theorem solve_9x9_keeps_the_solution o h f fuel :
  unshared h (refs o) →
  grid_of 3 3 None (snapshot h o) → candidates_in_range (snapshot h o) →
  complete_assignment (snapshot h o) f →
  match solve_obj fuel o h with
  | Returned_obj o' h' =>
      grid_of 3 3 None (snapshot h' o')
      ∧ ∀ i, i < 81 → cell (view h' (refs o')) i = {[f i]}
  | Raised_obj => False
  | OutOfFuel_obj => True
  end.
Proof.
  intros Hun Hg Hrange Hf. pose proof (solve_obj_view fuel o h Hun) as Hview.
  destruct (solve_obj fuel o h) as [o' h'| |]; cbn [outcome_view] in Hview;
    symmetry in Hview; [| |done].
  - by apply (solve_9x9_returned (snapshot h o) f fuel).
  - unfold solve in Hview.
    apply (solve_loop_not_raised 3 3 None) in Hview;
      [done|by apply simplify_grid_of|lia].
Qed.

Lemma solve_9x9_keeps_the_solution_witness :
  match solve_obj 10 objects_main_2.1 objects_main_2.2 with
  | Returned_obj o' h' =>
      grid_of 3 3 None (snapshot h' o')
      ∧ ∀ i, i < 81 → cell (view h' (refs o')) i = {[solution_main_2 i]}
  | Raised_obj => False
  | OutOfFuel_obj => True
  end.
Proof.
  destruct (solver_objects_grid _ _ _ _ _ _ _ objects_main_2_built)
    as (Hun & Hg & Hrange).
  exact (solve_9x9_keeps_the_solution objects_main_2.1 objects_main_2.2
           solution_main_2 10 Hun Hg Hrange solution_main_2_fills_objects).
Defined.

(** X12. On the standard 9×9 grid in which no two cells hold one set
    object, a board with two different solutions makes [solve()] loop for
    ever: it neither returns nor raises, however many iterations of the
    [while] loop it is allowed. *)
Theorem solve_9x9_loops_on_two_solutions o h f1 f2 c fuel :
  unshared h (refs o) →
  grid_of 3 3 None (snapshot h o) → candidates_in_range (snapshot h o) →
  complete_assignment (snapshot h o) f1 →
  complete_assignment (snapshot h o) f2 →
  c < 81 → f1 c ≠ f2 c →
  solve_obj fuel o h = OutOfFuel_obj.
Proof.
  intros Hun Hg Hrange Hf1 Hf2 Hc Hdiff.
  pose proof (solve_obj_view fuel o h Hun) as Hview.
  destruct (solve_obj fuel o h) as [o' h'| |]; cbn [outcome_view] in Hview;
    symmetry in Hview; [| |done]; exfalso.
  - destruct (solve_9x9_returned _ _ _ _ Hg Hrange Hf1 Hview) as [_ H1].
    destruct (solve_9x9_returned _ _ _ _ Hg Hrange Hf2 Hview) as [_ H2].
    specialize (H1 c Hc). rewrite (H2 c Hc) in H1.
    assert (f2 c ∈ ({[f1 c]} : gset Z)) as Hin
      by (rewrite <-H1; by apply elem_of_singleton).
    apply elem_of_singleton in Hin. by apply Hdiff.
  - unfold solve in Hview.
    apply (solve_loop_not_raised 3 3 None) in Hview;
      [done|by apply simplify_grid_of|lia].
Qed.

Lemma solve_9x9_loops_on_two_solutions_witness :
  solve_obj 1000 objects_9x9_blank.1 objects_9x9_blank.2 = OutOfFuel_obj.
Proof.
  destruct (solver_objects_grid _ _ _ _ _ _ _ objects_9x9_blank_built)
    as (Hun & Hg & Hrange).
  apply (solve_9x9_loops_on_two_solutions
           objects_9x9_blank.1 objects_9x9_blank.2
           solution_main_1 solution_main_2 0 1000 Hun Hg Hrange).
  - exact solution_main_1_fills_blank_objects.
  - exact solution_main_2_fills_blank_objects.
  - lia.
  - by_evaluation.
Defined.

(** X13. On a grid of side 10 or more (over 81 cells) [solve()] raises
    [IndexError] in its first pass as soon as [simplify()] has left a cell
    with two or more candidates: the trial grid [SudokuGrid()] has only 81
    cells for the copy loop to fill. *)
Theorem solve_raises_beyond_81_cells m n segments g c fuel :
  grid_of m n segments g → 9 < m * n →
  1 < size (cell (grid (simplify g)) c) →
  solve (S fuel) g = Raised.
Proof. apply solve_raises. Qed.

Lemma solve_raises_beyond_81_cells_witness :
  solve 1 grid_11x11_blank = Raised.
Proof.
  apply (solve_raises_beyond_81_cells 11 1 None grid_11x11_blank 0 0).
  - exact (SudokuGrid_init_grid_of _ _ _ _ grid_11x11_blank_built).
  - cbn. lia.
  - exact grid_11x11_blank_stays_open.
Defined.

(** X14. On a grid object of side at most 9, [solve()] never raises: every
    index it computes for the live grid and for the 81-cell trial grid is
    in range. *)
Theorem solve_never_raises_up_to_side_9 m n segments g fuel :
  grid_of m n segments g → m * n ≤ 9 → solve fuel g ≠ Raised.
Proof.
  intros Hg Hmn. unfold solve.
  by apply (solve_loop_not_raised m n segments); [apply simplify_grid_of|].
Qed.

Lemma solve_never_raises_up_to_side_9_witness :
  solve 1000 grid_4x4_one ≠ Raised.
Proof.
  apply (solve_never_raises_up_to_side_9 2 2 None).
  - exact (SudokuSolver_init_grid_of _ _ _ _ _ grid_4x4_one_built).
  - cbn. lia.
Defined.

(** X15. On the standard 9×9 grid the trial grid of [solve()] is a clone:
    for a cell index below 81 it is the live grid, same layout and same
    cells, with the cell at that index replaced by [{v}]. *)
Theorem trial_grid_clones_standard_grid g idx v :
  grid_of 3 3 None g → idx < 81 →
  trial_grid g idx v = Some (with_grid g (<[idx := {[v]}]> (grid g))).
Proof. apply trial_grid_clone_9x9. Qed.

Lemma trial_grid_clones_standard_grid_witness :
  trial_grid grid_main_1 3 9
  = Some (with_grid grid_main_1 (<[3 := {[9%Z]}]> (grid grid_main_1))).
Proof.
  apply (trial_grid_clones_standard_grid grid_main_1 3 9%Z).
  - exact (SudokuSolver_init_grid_of _ _ _ _ _ grid_main_1_built).
  - lia.
Defined.



(** X17. [get_subset(i)] for [i] below 512 reads the nine binary digits of
    [i] from the most significant one: the value [v] of [{1..9}] is in the
    subset exactly when bit [9 - v] of [i] is set (bit 0 stands for 9). *)
Theorem get_subset_reads_nine_bits i v :
  i < 2 ^ 9 →
  v ∈ get_subset i
  ↔ (1 ≤ v ≤ 9)%Z ∧ Z.testbit (Z.of_nat i) (9 - v) = true.
Proof.
  intros Hi. assert (2 ^ 9 = 512) as Hpow by reflexivity.
  pose proof get_subset_bits_upto_511 as Htable.
  rewrite list.Forall_forall in Htable.
  rewrite (Htable i) by (apply elem_of_seq; lia).
  rewrite elem_of_list_to_set, list_elem_of_filter, list_elem_of_fmap. split.
  - intros [Hbit (k & -> & Hk)]. apply elem_of_seq in Hk. split; [lia|done].
  - intros [Hv Hbit]. split; [done|]. exists (Z.to_nat v).
    split; [lia|apply elem_of_seq; lia].
Qed.

Lemma get_subset_reads_nine_bits_witness :
  7%Z ∈ get_subset 5
  ↔ (1 ≤ 7 ≤ 9)%Z ∧ Z.testbit (Z.of_nat 5) (9 - 7) = true.
Proof. apply (get_subset_reads_nine_bits 5 7%Z). cbn. lia. Defined.

(** X18. From 512 on, [get_subset(i)] still reads only the first nine
    characters of the binary numeral, which now has more than nine digits:
    the last digit is ignored, [get_subset(i) = get_subset(i // 2)]. *)
Theorem get_subset_ignores_digits_past_nine i :
  2 ^ 9 ≤ i → get_subset i = get_subset (i / 2).
Proof.
  intros Hi. assert (2 ^ 9 = 512) as Hpow by reflexivity.
  unfold get_subset. do 2 f_equal. apply filter_ext_on. intros k Hk.
  apply elem_of_seq in Hk. rewrite format_9b_wide; [done|lia|lia].
Qed.

Lemma get_subset_ignores_digits_past_nine_witness :
  get_subset 1023 = get_subset (1023 / 2).
Proof. apply (get_subset_ignores_digits_past_nine 1023). cbn. lia. Defined.

(** X20. [simplify()] is [reduce_options] repeated until the first pass
    that removes nothing: with [k] the number of passes it makes, its
    result is the grid after [k] passes, pass [k] changes nothing, and each
    of the passes before it removes at least one candidate. *)
Theorem simplify_stops_at_first_idle_pass g :
  1 ≤ simplify_passes g
  ∧ simplify g = reduce_times (simplify_passes g) g
  ∧ reduce_times (simplify_passes g) g = reduce_times (simplify_passes g - 1) g
  ∧ ∀ j, j < simplify_passes g - 1 →
         options (reduce_times (S j) g) < options (reduce_times j g).
Proof.
  destruct (simplify_loop_total (S (options g)) g)
    as (g' & k & Hrun & _); [lia|].
  unfold simplify, simplify_passes. rewrite Hrun.
  destruct (simplify_loop_passes _ _ _ _ Hrun) as (Hk & Hg' & Hlast & Hbefore).
  split_and!; [done..|]. intros j Hj.
  pose proof (reduce_times_options_le j g). specialize (Hbefore j Hj). lia.
Qed.
